(** * rhttp: regular-expression routing for Go's net/http

    A shallow embedding of [rhttp.go] (pattern compiler, parameter
    resolver, ordered route table and dispatcher) together with the
    properties of its specification.

    Go strings are byte sequences; they are modelled as [list ascii].
    Go [int] values that the source keeps non-negative by construction
    (string offsets, the nesting depth, the group ordinal) are [nat];
    [int] values that may be arbitrary (map keys taken from a
    caller-supplied map, submatch offsets, which may be -1) are [Z]. *)

From Stdlib Require Import ZArith Ascii String List Lia Bool.
From stdpp Require Import base list gmap strings sorting.

Open Scope Z_scope.
Open Scope nat_scope.

(** ** Go strings *)

Abbreviation gostring := (list ascii).

(** String literals of the source, as byte lists. *)
Definition str (s : string) : gostring := list_ascii_of_string s.

(** [s[a:b]] for [a <= b <= len(s)] (Go panics otherwise; every slice
    expression of the source stays in range). *)
Definition slice (s : gostring) (a b : nat) : gostring := take (b - a) (drop a s).

(** [s[a:]] *)
Definition slice_from (s : gostring) (a : nat) : gostring := drop a s.

(** Go compares strings bytewise, bytes as unsigned numbers. *)
Fixpoint str_compare (a b : gostring) : comparison :=
  match a, b with
  | [], [] => Eq
  | [], _ :: _ => Lt
  | _ :: _, [] => Gt
  | x :: a', y :: b' =>
      match N.compare (N_of_ascii x) (N_of_ascii y) with
      | Eq => str_compare a' b'
      | c => c
      end
  end.

(** [a > b] and [a >= b] on strings. *)
Definition str_gtb (a b : gostring) : bool :=
  match str_compare a b with Gt => true | _ => false end.
Definition str_geb (a b : gostring) : bool :=
  match str_compare a b with Lt => false | _ => true end.

Definition str_le (a b : gostring) : Prop := str_compare a b <> Gt.
Definition str_lt (a b : gostring) : Prop := str_compare a b = Lt.

(** [strings.HasPrefix(s, p)] *)
Fixpoint HasPrefix (s p : gostring) : bool :=
  match p, s with
  | [], _ => true
  | _ :: _, [] => false
  | y :: p', x :: s' => if Ascii.eqb x y then HasPrefix s' p' else false
  end.

(** ** sort.Search

    The binary search of Go's [sort] package:
<<
    i, j := 0, n
    for i < j { h := int(uint(i+j) >> 1)
                if !f(h) { i = h + 1 } else { j = h } }
    return i
>>
    The loop runs at most [n] times, which is the fuel given to it. *)
Module Sort.

Fixpoint search_loop (fuel : nat) (f : nat -> bool) (i j : nat) : nat :=
  match fuel with
  | O => i
  | S fuel' =>
      if i <? j then
        let h := (i + j) / 2 in
        if negb (f h) then search_loop fuel' f (h + 1) j
        else search_loop fuel' f i h
      else i
  end.

Definition Search (n : nat) (f : nat -> bool) : nat := search_loop n f 0 n.

End Sort.

(** ** strconv

    [ParseInt(s, 10, 64)] and [ParseUint(s, 10, 64)]: the callers only
    test [err != nil], so an error of either kind (syntax, range) is
    [None].  With an explicit base 10 no underscore is accepted. *)
Module Strconv.

Definition digit (c : ascii) : option Z :=
  let n := N_of_ascii c in
  if ((48 <=? n) && (n <=? 57))%N then Some (Z.of_N n - 48)%Z else None.

Fixpoint digits (s : gostring) (acc : Z) : option Z :=
  match s with
  | [] => Some acc
  | c :: s' =>
      match digit c with
      | Some d => digits s' (10 * acc + d)%Z
      | None => None
      end
  end.

Definition ParseUint (s : gostring) : option Z :=
  match s with
  | [] => None
  | _ :: _ =>
      match digits s 0 with
      | Some n => if (n <? 2 ^ 64)%Z then Some n else None
      | None => None
      end
  end.

Definition magnitude (s : gostring) : option Z :=
  match s with
  | [] => None
  | _ :: _ => digits s 0
  end.

Definition ParseInt (s : gostring) : option Z :=
  match s with
  | [] => None
  | c :: s' =>
      let neg := Ascii.eqb c "-" in
      let body := if Ascii.eqb c "+" || neg then s' else s in
      match magnitude body with
      | None => None
      | Some un =>
          let cutoff := (2 ^ 63)%Z in
          if negb neg && (cutoff <=? un)%Z then None
          else if neg && (cutoff <? un)%Z then None
          else Some (if neg then (- un)%Z else un)
      end
  end.

End Strconv.

(** [strconv.ParseFloat(s, 64)] and the float type are left abstract. *)
Class Float64 (float64 : Type) := {
  ParseFloat : gostring -> option float64;
}.

(** ** regexp

    The [regexp] package is external to the repository: the router is
    embedded over any engine offering [Compile] (here [None] on error)
    and [FindStringSubmatchIndex] ([[]] when there is no match, else
    the start and end offsets of the match and of every capturing
    group, -1 for a group that did not take part). *)
Class RegexpEngine (Regexp : Type) := {
  regexp_Compile : gostring -> option Regexp;
  FindStringSubmatchIndex : Regexp -> gostring -> list Z;
}.

(** [regexp.QuoteMeta]: a backslash before each of [\.+*?()|[]{}^$]. *)
Definition specialBytes : gostring := str "\.+*?()|[]{}^$".

Definition special (c : ascii) : bool :=
  existsb (Ascii.eqb c) specialBytes.

Definition QuoteMeta (s : gostring) : gostring :=
  flat_map (fun c => if special c then ["\"%char; c] else [c]) s.

(** ** Iteration order of a Go map

    [for k, v := range m] visits the entries of [m] in an unspecified
    order: the order is a parameter, constrained to enumerate the map. *)
Class MapRange := {
  rangeOrder : gmap Z nat -> list (Z * nat);
  rangeOrder_perm : forall m, rangeOrder m ≡ₚ map_to_list m;
}.

(** ** rhttp: errors *)

Inductive errorCause :=
  | Unterminated
  | MissingVariableName
  | InvalidVariableName
  | UndefinedVariable
  | UnmatchedRightParen.

Record PatternCompileError := mkPatternCompileError {
  cause : errorCause;
  currentGroup : gostring;
  errPattern : gostring;
  errName : gostring;
  errAt : nat;
}.

(** The [error] values [compilePattern] can return: its own, or the
    one of [regexp.Compile]. *)
Inductive compileError :=
  | PatternError (e : PatternCompileError)
  | RegexpError.

(** ** rhttp: removeEscapes

    The loop of the source, byte by byte: [i] is the loop index,
    [begin] the start of the pending span, [skip] is set when the
    source's [i += 1] steps over the byte after a backslash. *)
Fixpoint removeEscapes_loop (s rest : gostring) (i begin : nat) (skip : bool)
    (unescaped : gostring) : gostring :=
  match rest with
  | [] => unescaped ++ slice_from s begin
  | c :: rest' =>
      if skip then removeEscapes_loop s rest' (S i) begin false unescaped
      else if Ascii.eqb c "\" then
        removeEscapes_loop s rest' (S i) (S i) true (unescaped ++ slice s begin i)
      else removeEscapes_loop s rest' (S i) begin false unescaped
  end.

Definition removeEscapes (s : gostring) : gostring :=
  removeEscapes_loop s s 0 0 false [].

(** ** rhttp: allowedName, allowedType

    [allowedNameRe] is [^[a-zA-Z_]\w*$], [\w] being [[0-9A-Za-z_]]. *)
Definition is_letter_ (c : ascii) : bool :=
  let n := N_of_ascii c in
  (((65 <=? n) && (n <=? 90)) || ((97 <=? n) && (n <=? 122)) || (n =? 95))%N.

Definition is_word (c : ascii) : bool :=
  let n := N_of_ascii c in
  (is_letter_ c || ((48 <=? n) && (n <=? 57)))%N.

Definition allowedName (name : gostring) : bool :=
  match name with
  | [] => false
  | c :: rest => is_letter_ c && forallb is_word rest
  end.

(** [reflect.Kind] *)
Inductive Kind :=
  | Invalid | Bool
  | Int | Int8 | Int16 | Int32 | Int64
  | Uint | Uint8 | Uint16 | Uint32 | Uint64 | Uintptr
  | Float32 | Float64K | Complex64 | Complex128
  | Array | Chan | Func | Interface | Map | Ptr | Slice
  | String | Struct | UnsafePointer.

Definition allowedType (k : Kind) : bool :=
  match k with
  | Int | Int8 | Int16 | Int32 | Int64
  | Uint | Uint8 | Uint16 | Uint32 | Uint64
  | Float32 | Float64K | String => true
  | _ => false
  end.

(** ** rhttp: compilePattern *)

(** The local variables of [compilePattern]. *)
Record locals := mkLocals {
  l_err : option PatternCompileError;
  l_prefix : gostring;
  l_paramsIndex : gmap Z nat;
  l_paramIndex : nat;
  l_groupBegin : nat;
  l_groupEnd : nat;
  l_equals : nat;
  l_parens : nat;
  l_regexpString : gostring;
  l_escape : bool;
}.

Definition initial : locals :=
  mkLocals None [] ∅ 0 0 0 0 0 [] false.

(** What [compilePattern] returns: [(re, prefix, paramsIndex, err)]. *)
Record compiled (Regexp : Type) := mkCompiled {
  c_re : option Regexp;
  c_prefix : gostring;
  c_paramsIndex : gmap Z nat;
  c_err : option compileError;
}.
Arguments mkCompiled {Regexp}.
Arguments c_re {Regexp}.
Arguments c_prefix {Regexp}.
Arguments c_paramsIndex {Regexp}.
Arguments c_err {Regexp}.

Section Compile.
Context {Regexp : Type} {RX : RegexpEngine Regexp}.

(** One iteration of [for i, r := range pattern]; [inr] is a [return]
    from inside the loop.  The source ranges over runes, [i] being the
    byte offset of the rune; every character it tests is ASCII and no
    byte of a multi-byte rune is, so stepping byte by byte does the
    same. *)
Definition step (pattern : gostring) (nameToField : gmap gostring Z)
    (i : nat) (r : ascii) (st : locals) : locals + compiled Regexp :=
  let '(mkLocals err prefix paramsIndex paramIndex groupBegin groupEnd
          equals parens regexpString escape) := st in
  if escape then
    inl (mkLocals err prefix paramsIndex paramIndex groupBegin groupEnd
           equals parens regexpString false)
  else if parens =? 0 then
    if Ascii.eqb r "\" then
      inl (mkLocals err prefix paramsIndex paramIndex groupBegin groupEnd
             equals parens regexpString true)
    else if Ascii.eqb r "(" then
      let piece := removeEscapes (slice pattern groupEnd i) in
      inl (mkLocals err (if groupBegin =? 0 then piece else prefix)
             paramsIndex paramIndex i groupEnd i (parens + 1)
             (regexpString ++ QuoteMeta piece ++ str "(") escape)
    else if Ascii.eqb r ")" then
      inr (mkCompiled None [] paramsIndex
             (Some (PatternError
                (mkPatternCompileError UnmatchedRightParen [] pattern [] i))))
    else inl st
  else
    if Ascii.eqb r "(" then
      inl (mkLocals err prefix paramsIndex paramIndex groupBegin groupEnd
             equals (parens + 1) regexpString escape)
    else if Ascii.eqb r ")" then
      let parens := parens - 1 in
      if parens =? 0 then
        let groupEnd := i + 1 in
        match err with
        | Some e =>
            inr (mkCompiled None [] paramsIndex
                   (Some (PatternError
                      (mkPatternCompileError (cause e)
                         (slice pattern groupBegin groupEnd) pattern
                         (errName e) (errAt e)))))
        | None =>
            inl (mkLocals err prefix paramsIndex paramIndex groupBegin
                   groupEnd equals parens
                   (regexpString ++ slice pattern (equals + 1) (i + 1))
                   escape)
        end
      else
        inl (mkLocals err prefix paramsIndex paramIndex groupBegin groupEnd
               equals parens regexpString escape)
    else if Ascii.eqb r "=" && (equals =? groupBegin) then
      let name := slice pattern (groupBegin + 1) i in
      let err :=
        if length name =? 0 then
          Some (mkPatternCompileError MissingVariableName [] [] []
                  (groupBegin + 1))
        else if negb (allowedName name) then
          Some (mkPatternCompileError InvalidVariableName [] [] name
                  (groupBegin + 1))
        else if bool_decide (nameToField !! name = None) then
          Some (mkPatternCompileError UndefinedVariable [] [] name
                  (groupBegin + 1))
        else err in
      inl (mkLocals err prefix
             (<[default 0%Z (nameToField !! name) := paramIndex]> paramsIndex)
             (paramIndex + 1) groupBegin groupEnd i parens regexpString
             escape)
    else inl st.

(** The loop over the bytes [rest] of [pattern] from offset [i] on. *)
Fixpoint scan (pattern : gostring) (nameToField : gmap gostring Z)
    (i : nat) (rest : gostring) (st : locals) : locals + compiled Regexp :=
  match rest with
  | [] => inl st
  | r :: rest' =>
      match step pattern nameToField i r st with
      | inl st' => scan pattern nameToField (S i) rest' st'
      | inr res => inr res
      end
  end.

(** What follows the loop. *)
Definition finish (pattern : gostring) (st : locals) : compiled Regexp :=
  if negb (l_parens st =? 0) then
    mkCompiled None [] (l_paramsIndex st)
      (Some (PatternError
         (mkPatternCompileError Unterminated [] pattern []
            (l_groupBegin st))))
  else
    let piece := removeEscapes (slice_from pattern (l_groupEnd st)) in
    let regexpString := l_regexpString st ++ QuoteMeta piece in
    let prefix := if l_groupBegin st =? 0 then piece else l_prefix st in
    let r := regexp_Compile (str "^" ++ regexpString ++ str "$") in
    mkCompiled r prefix (l_paramsIndex st)
      (match r with Some _ => None | None => Some RegexpError end).

Definition compilePattern (pattern : gostring)
    (nameToField : gmap gostring Z) : compiled Regexp :=
  match scan pattern nameToField 0 pattern initial with
  | inr res => res
  | inl st => finish pattern st
  end.

End Compile.

(** ** rhttp: readParams *)

(** A field of the params struct as [reflect] shows it: [Tag] is
    [f.Tag.Get("rhttp")] (empty when the key is absent), [Exported] is
    what decides whether [reflect] lets the field be set. *)
Record StructField := mkField {
  Name : gostring;
  FieldKind : Kind;
  Tag : gostring;
  Exported : bool;
}.

(** The [params interface{}] argument, by what [reflect.ValueOf] finds:
    a nil interface, a typed nil pointer, a pointer to a struct, a
    pointer to a value of another kind, or a non-pointer of some kind. *)
Inductive paramsArg :=
  | NilInterface
  | NilPointer
  | PointerToStruct (fields : list StructField)
  | PointerTo (k : Kind)
  | NonPointer (k : Kind).

Inductive paramsError :=
  | NotStructPointer (k : Kind)
  | NotStruct (k : Kind)
  | InvalidParamName (f : StructField)
  | InvalidParamType (f : StructField).

(** The loop [for i := 0; i < v.NumField(); i += 1] from field [i] on. *)
Fixpoint readFields (fields : list StructField) (i : Z)
    (nameToField : gmap gostring Z) : gmap gostring Z * option paramsError :=
  match fields with
  | [] => (nameToField, None)
  | f :: rest =>
      let tag := Tag f in
      if negb (length tag =? 0) then
        if negb (allowedName tag) then (nameToField, Some (InvalidParamName f))
        else if negb (allowedType (FieldKind f)) then
          (nameToField, Some (InvalidParamType f))
        else readFields rest (i + 1)%Z (<[tag := i]> nameToField)
      else if allowedType (FieldKind f) && allowedName (Name f) then
        if bool_decide (nameToField !! Name f = None) then
          readFields rest (i + 1)%Z (<[Name f := i]> nameToField)
        else readFields rest (i + 1)%Z nameToField
      else readFields rest (i + 1)%Z nameToField
  end.

(** [(nameToField, paramsType, err)]; [paramsType] is the struct type,
    [None] for Go's nil [reflect.Type]. *)
Definition readParams (params : paramsArg)
    : gmap gostring Z * option (list StructField) * option paramsError :=
  match params with
  | NilInterface | NilPointer => (∅, None, None)
  | NonPointer k => (∅, None, Some (NotStructPointer k))
  | PointerTo k => (∅, None, Some (NotStruct k))
  | PointerToStruct fields =>
      let '(nameToField, err) := readFields fields 0%Z ∅ in
      (nameToField, Some fields, err)
  end.

(** ** rhttp: the router *)

Section Router.
Context {Regexp : Type} {RX : RegexpEngine Regexp}.
Context {float64 : Type} {FL : Float64 float64} {MR : MapRange}.
Context {Handler : Type}.

Record regexpHandler := mkRegexpHandler {
  rh_handler : Handler;
  rh_prefix : gostring;
  rh_re : option Regexp;
  rh_paramsType : option (list StructField);
  rh_paramsIndex : gmap Z nat;
}.

(** [RegexpRouter.routes] *)
Abbreviation RegexpRouter := (list regexpHandler).

Definition NewRouter : RegexpRouter := [].

(** [r.routes[i].prefix] inside the [sort.Search] closures, which are
    only called with [i < len(r.routes)]. *)
Definition prefix_at (routes : RegexpRouter) (i : nat) : gostring :=
  match routes !! i with
  | Some rh => rh_prefix rh
  | None => []
  end.

(** The last two lines of [Handle]: insert before every route with
    the same prefix. *)
Definition insertRoute (rh : regexpHandler) (routes : RegexpRouter)
    : RegexpRouter :=
  let i := Sort.Search (length routes)
             (fun i => str_geb (prefix_at routes i) (rh_prefix rh)) in
  take i routes ++ rh :: drop i routes.

Inductive registrationPanic :=
  | ParamsPanic (e : paramsError)
  | CompilePanic (e : compileError).

(** The first part of [Handle]: the route [rh] it builds; [inl] is
    the [panic(err)]. *)
Definition newRoute (pattern : gostring) (handler : Handler)
    (params : paramsArg) : registrationPanic + regexpHandler :=
  match readParams params with
  | (_, _, Some err) => inl (ParamsPanic err)
  | (nameToField, paramsType, None) =>
      let c := compilePattern pattern nameToField in
      match c_err c with
      | Some err => inl (CompilePanic err)
      | None =>
          inr (mkRegexpHandler handler (c_prefix c) (c_re c) paramsType
                 (c_paramsIndex c))
      end
  end.

Definition Handle (pattern : gostring) (handler : Handler)
    (params : paramsArg) (routes : RegexpRouter)
    : registrationPanic + RegexpRouter :=
  match newRoute pattern handler params with
  | inl p => inl p
  | inr rh => inr (insertRoute rh routes)
  end.

(** *** ServeHTTP *)

(** A field of the params struct once set; a field never set keeps its
    zero value ([None] in the struct below).  [FloatValue k v] is the
    parsed [v] in a field of kind [k]: the narrowing to [float32] is
    not modelled. *)
Inductive value :=
  | IntValue (v : Z)
  | UintValue (v : Z)
  | FloatValue (k : Kind) (v : float64)
  | StringValue (v : gostring).

Inductive panic :=
  | NilRegexp
  | IndexOutOfRange
  | SliceOutOfRange
  | FieldOutOfRange
  | UnexportedField
  | CannotSetType (k : Kind).

Inductive outcome :=
  | NotFound
  | Served (handler : Handler) (params : option (list (option value)))
  | Panicked (p : panic).

(** [path[a:b]] with Go's bounds check. *)
Definition slice_checked (path : gostring) (a b : Z) : option gostring :=
  if ((0 <=? a) && (a <=? b) && (b <=? Z.of_nat (length path)))%Z
  then Some (slice path (Z.to_nat a) (Z.to_nat b)) else None.

(** The loop [for i := 2; i < len(is); i += 2] over [is[i:]], two
    offsets at a time: the values of the outermost submatches. *)
Fixpoint outermost (path : gostring) (is_ : list Z) (matchEnd : Z)
    : panic + list gostring :=
  match is_ with
  | [] => inr []
  | [a] => if (matchEnd <=? a)%Z then inl IndexOutOfRange else inr []
  | a :: b :: rest =>
      if (matchEnd <=? a)%Z then
        match slice_checked path a b with
        | None => inl SliceOutOfRange
        | Some v =>
            match outermost path rest b with
            | inl p => inl p
            | inr vals => inr (v :: vals)
            end
        end
      else outermost path rest matchEnd
  end.

Definition extractVals (path : gostring) (is_ : list Z) : panic + list gostring :=
  outermost path (drop 2 is_) 0%Z.

(** Bit sizes of the integer kinds ([int] and [uint] taken as 64 bits
    wide) and what [SetInt] and [SetUint] store in a narrower field. *)
Definition bits (k : Kind) : Z :=
  match k with
  | Int8 | Uint8 => 8
  | Int16 | Uint16 => 16
  | Int32 | Uint32 => 32
  | _ => 64
  end.

Definition wrap_signed (w v : Z) : Z :=
  ((v + 2 ^ (w - 1)) mod 2 ^ w - 2 ^ (w - 1))%Z.

Definition wrap_unsigned (w v : Z) : Z := (v mod 2 ^ w)%Z.

Inductive coerced :=
  | Accept (params : list (option value))
  | Reject
  | CoercePanic (p : panic).

(** One iteration of [for f, v := range paramsIndex]. *)
Definition setField (fields : list StructField) (vals : list gostring)
    (f : Z) (v : nat) (params : list (option value)) : coerced :=
  if (f <? 0)%Z then CoercePanic FieldOutOfRange else
  match fields !! Z.to_nat f with
  | None => CoercePanic FieldOutOfRange
  | Some fld =>
      let store (x : value) :=
        if Exported fld then Accept (<[Z.to_nat f := Some x]> params)
        else CoercePanic UnexportedField in
      let k := FieldKind fld in
      match k with
      | Int | Int8 | Int16 | Int32 | Int64 =>
          match vals !! v with
          | None => CoercePanic IndexOutOfRange
          | Some s =>
              match Strconv.ParseInt s with
              | None => Reject
              | Some val => store (IntValue (wrap_signed (bits k) val))
              end
          end
      | Uint | Uint8 | Uint16 | Uint32 | Uint64 =>
          match vals !! v with
          | None => CoercePanic IndexOutOfRange
          | Some s =>
              match Strconv.ParseUint s with
              | None => Reject
              | Some val => store (UintValue (wrap_unsigned (bits k) val))
              end
          end
      | Float32 | Float64K =>
          match vals !! v with
          | None => CoercePanic IndexOutOfRange
          | Some s =>
              match ParseFloat s with
              | None => Reject
              | Some val => store (FloatValue k val)
              end
          end
      | String =>
          match vals !! v with
          | None => CoercePanic IndexOutOfRange
          | Some s => store (StringValue s)
          end
      | _ => CoercePanic (CannotSetType k)
      end
  end.

(** The whole [range] loop over the entries in the order visited. *)
Fixpoint setFields (fields : list StructField) (vals : list gostring)
    (entries : list (Z * nat)) (params : list (option value)) : coerced :=
  match entries with
  | [] => Accept params
  | (f, v) :: rest =>
      match setField fields vals f v params with
      | Accept params' => setFields fields vals rest params'
      | other => other
      end
  end.

(** [reflect.New(paramsType)]: every field at its zero value. *)
Definition newParams (t : list StructField) : list (option value) :=
  replicate (length t) None.

(** What a route that was reached does with the request: it answers
    ([Done]) or the search goes on ([KeepLooking], the [goto] of the
    source or the next turn of its [for] loop). *)
Inductive attempt :=
  | Done (o : outcome)
  | KeepLooking.

(** The code after the [for] loop, for the route whose regexp matched
    with submatch offsets [is]. *)
Definition serveMatch (rh : regexpHandler) (path : gostring) (is_ : list Z)
    : attempt :=
  match rh_paramsType rh with
  | None => Done (Served (rh_handler rh) None)
  | Some t =>
      match extractVals path is_ with
      | inl p => Done (Panicked p)
      | inr vals =>
          match setFields t vals (rangeOrder (rh_paramsIndex rh))
                  (newParams t) with
          | Accept params => Done (Served (rh_handler rh) (Some params))
          | Reject => KeepLooking
          | CoercePanic p => Done (Panicked p)
          end
      end
  end.

Definition tryRoute (rh : regexpHandler) (path : gostring) : attempt :=
  match rh_re rh with
  | None => Done (Panicked NilRegexp)
  | Some re =>
      match FindStringSubmatchIndex re path with
      | [] => KeepLooking
      | is_ => serveMatch rh path is_
      end
  end.

(** The code from the label [keepLooking] on; [h] is the value the
    source decrements first, so the route looked at is [h - 1]. *)
Fixpoint keepLooking (routes : RegexpRouter) (path : gostring) (h : nat)
    : outcome :=
  match h with
  | O => NotFound
  | S h' =>
      match routes !! h' with
      | None => Panicked IndexOutOfRange
      | Some rh =>
          if HasPrefix path (rh_prefix rh) then
            match tryRoute rh path with
            | Done o => o
            | KeepLooking => keepLooking routes path h'
            end
          else NotFound
      end
  end.

Definition boundary (routes : RegexpRouter) (path : gostring) : nat :=
  Sort.Search (length routes) (fun i => str_gtb (prefix_at routes i) path).

Definition ServeHTTP (routes : RegexpRouter) (path : gostring) : outcome :=
  keepLooking routes path (boundary routes path).

(** The indices of the routes whose regexp [keepLooking] runs, in the
    order it runs them (a ghost of [keepLooking]). *)
Fixpoint evaluated (routes : RegexpRouter) (path : gostring) (h : nat)
    : list nat :=
  match h with
  | O => []
  | S h' =>
      match routes !! h' with
      | None => []
      | Some rh =>
          if HasPrefix path (rh_prefix rh) then
            h' :: match tryRoute rh path with
                  | Done _ => []
                  | KeepLooking => evaluated routes path h'
                  end
          else []
      end
  end.

(** A sequence of [Handle] calls; the first panic ends the program. *)
Fixpoint HandleAll (regs : list (gostring * Handler * paramsArg))
    (routes : RegexpRouter) : registrationPanic + RegexpRouter :=
  match regs with
  | [] => inr routes
  | (pattern, handler, params) :: rest =>
      match Handle pattern handler params routes with
      | inl p => inl p
      | inr routes' => HandleAll rest routes'
      end
  end.

End Router.

(** ** A fragment of Go's regexp syntax and matcher

    Used to run the router on concrete patterns.  The fragment is:
    literal bytes, [\c] for a punctuation byte [c], [.], character
    classes [[...]] and [[^...]] of bytes and byte ranges, [^] and [$]
    (no flags: begin and end of text), capturing groups, [(?:...)],
    alternation, and the greedy [*], [+], [?] on an operand that cannot
    match the empty string.  [Compile] answers [None] for a syntax
    error and for everything outside the fragment.  Matching is
    leftmost-first with greedy repetition, as Go's (non-POSIX) engine
    defines it; a group inside a repetition reports its last iteration. *)
Module RE.

Inductive re :=
  | Empty
  | Char (c : ascii)
  | AnyNotNL
  | Class (neg : bool) (ranges : list (ascii * ascii))
  | Bol
  | Eol
  | Cap (n : nat) (r : re)
  | Cat (r1 r2 : re)
  | Alt (r1 r2 : re)
  | Star (r : re).

Fixpoint nullable (r : re) : bool :=
  match r with
  | Empty | Bol | Eol | Star _ => true
  | Char _ | AnyNotNL | Class _ _ => false
  | Cap _ r1 => nullable r1
  | Cat r1 r2 => nullable r1 && nullable r2
  | Alt r1 r2 => nullable r1 || nullable r2
  end.

(** *** Parsing, with a stack of open groups as in Go's parser *)

Record frame := mkFrame {
  f_cap : option nat;      (* the number of the group, if it captures *)
  f_alts : list re;        (* the alternatives completed, last first *)
  f_cur : list re;         (* the current concatenation, last first *)
}.

Definition cat_of (cur : list re) : re :=
  fold_left (fun acc r => match acc with Empty => r | _ => Cat r acc end) cur Empty.

Definition alt_of (alts : list re) (last : re) : re :=
  fold_left (fun acc r => Alt r acc) alts last.

Definition close (f : frame) : re := alt_of (f_alts f) (cat_of (f_cur f)).

Definition push (r : re) (f : frame) : frame :=
  mkFrame (f_cap f) (f_alts f) (r :: f_cur f).

Definition is_punct (c : ascii) : bool :=
  let n := N_of_ascii c in
  (((33 <=? n) && (n <=? 47)) || ((58 <=? n) && (n <=? 64))
   || ((91 <=? n) && (n <=? 96)) || ((123 <=? n) && (n <=? 126)))%N.

Definition repeat_op (c : ascii) (x : re) : re :=
  if Ascii.eqb c "*" then Star x
  else if Ascii.eqb c "+" then Cat x (Star x)
  else Alt x Empty.

(** [cls] is [Some] inside a character class; [rep] says that the last
    operand already carries a repetition operator. *)
Fixpoint parse (cs : gostring) (top : frame) (below : list frame)
    (ncap : nat) (rep : bool) (cls : option (bool * list (ascii * ascii)))
    : option (re * nat) :=
  match cls with
  | Some (neg, acc) =>
      match cs with
      | [] => None
      | c :: rest =>
          if Ascii.eqb c "]" then
            match acc with
            | [] => None
            | _ :: _ => parse rest (push (Class neg (rev acc)) top) below ncap
                          false None
            end
          else if Ascii.eqb c "\" || Ascii.eqb c "[" then None
          else
            match rest with
            | d :: hi :: rest' =>
                if Ascii.eqb d "-" && negb (Ascii.eqb hi "]") then
                  if Ascii.eqb hi "\" || Ascii.eqb hi "[" then None
                  else if (N_of_ascii c <=? N_of_ascii hi)%N then
                    parse rest' top below ncap rep (Some (neg, (c, hi) :: acc))
                  else None
                else parse rest top below ncap rep (Some (neg, (c, c) :: acc))
            | _ => parse rest top below ncap rep (Some (neg, (c, c) :: acc))
            end
      end
  | None =>
      match cs with
      | [] => match below with [] => Some (close top, ncap) | _ :: _ => None end
      | c :: rest =>
          if Ascii.eqb c "(" then
            match rest with
            | q :: rest' =>
                if Ascii.eqb q "?" then
                  match rest' with
                  | colon :: rest'' =>
                      if Ascii.eqb colon ":" then
                        parse rest'' (mkFrame None [] []) (top :: below) ncap
                          false None
                      else None
                  | [] => None
                  end
                else parse rest (mkFrame (Some (S ncap)) [] []) (top :: below)
                       (S ncap) false None
            | [] => None
            end
          else if Ascii.eqb c ")" then
            match below with
            | [] => None
            | parent :: below' =>
                let r := close top in
                let g := match f_cap top with Some n => Cap n r | None => r end in
                parse rest (push g parent) below' ncap false None
            end
          else if Ascii.eqb c "|" then
            parse rest (mkFrame (f_cap top) (cat_of (f_cur top) :: f_alts top) [])
              below ncap false None
          else if Ascii.eqb c "*" || Ascii.eqb c "+" || Ascii.eqb c "?" then
            if rep then None else
            match f_cur top with
            | [] => None
            | x :: cur =>
                if nullable x then None
                else parse rest
                       (mkFrame (f_cap top) (f_alts top) (repeat_op c x :: cur))
                       below ncap true None
            end
          else if Ascii.eqb c "\" then
            match rest with
            | e :: rest' =>
                if is_punct e then parse rest' (push (Char e) top) below ncap
                                     false None
                else None
            | [] => None
            end
          else if Ascii.eqb c "[" then
            match rest with
            | n :: rest' =>
                if Ascii.eqb n "^" then parse rest' top below ncap false
                                          (Some (true, []))
                else parse rest top below ncap false (Some (false, []))
            | [] => None
            end
          else if Ascii.eqb c "]" || Ascii.eqb c "{" || Ascii.eqb c "}" then None
          else if Ascii.eqb c "." then parse rest (push AnyNotNL top) below ncap false None
          else if Ascii.eqb c "^" then parse rest (push Bol top) below ncap false None
          else if Ascii.eqb c "$" then parse rest (push Eol top) below ncap false None
          else parse rest (push (Char c) top) below ncap false None
      end
  end.

(** *** Matching *)

(** The offsets of the groups seen so far; entry 0 is the whole match. *)
Abbreviation caps := (list (option (nat * nat))).

Definition in_class (neg : bool) (ranges : list (ascii * ascii)) (c : ascii)
    : bool :=
  let n := N_of_ascii c in
  xorb neg
    (existsb (fun '(lo, hi) => (N_of_ascii lo <=? n)%N && (n <=? N_of_ascii hi)%N)
       ranges).

(** Backtracking in continuation-passing style: [k] is what has to
    match after [r].  An iteration of a star has to consume input, so
    at most [length s] of them happen. *)
Fixpoint run (r : re) (s : gostring) (i : nat) (c : caps)
    (k : nat -> caps -> option caps) {struct r} : option caps :=
  match r with
  | Empty => k i c
  | Char x =>
      match s !! i with
      | Some y => if Ascii.eqb x y then k (S i) c else None
      | None => None
      end
  | AnyNotNL =>
      match s !! i with
      | Some y => if Ascii.eqb y "010" then None else k (S i) c
      | None => None
      end
  | Class neg ranges =>
      match s !! i with
      | Some y => if in_class neg ranges y then k (S i) c else None
      | None => None
      end
  | Bol => if i =? 0 then k i c else None
  | Eol => if i =? length s then k i c else None
  | Cap n r1 => run r1 s i c (fun j c' => k j (<[n := Some (i, j)]> c'))
  | Cat r1 r2 => run r1 s i c (fun j c' => run r2 s j c' k)
  | Alt r1 r2 =>
      match run r1 s i c k with
      | Some res => Some res
      | None => run r2 s i c k
      end
  | Star r1 =>
      (fix loop (fuel : nat) (i : nat) (c : caps) {struct fuel} : option caps :=
         match fuel with
         | O => k i c
         | S fuel' =>
             match run r1 s i c
                     (fun j c' => if i <? j then loop fuel' j c' else None) with
             | Some res => Some res
             | None => k i c
             end
         end) (S (length s)) i c
  end.

Definition offsets (c : caps) : list Z :=
  flat_map (fun o => match o with
                     | Some (a, b) => [Z.of_nat a; Z.of_nat b]
                     | None => [(-1)%Z; (-1)%Z]
                     end) c.

(** The leftmost match: the start offsets are tried in order. *)
Fixpoint find_from (p : re) (ncap : nat) (s : gostring) (starts : list nat)
    : list Z :=
  match starts with
  | [] => []
  | i :: rest =>
      match run p s i (replicate (S ncap) None)
              (fun j c => Some (<[0 := Some (i, j)]> c)) with
      | Some c => offsets c
      | None => find_from p ncap s rest
      end
  end.

Definition compile (expr : gostring) : option (re * nat) :=
  parse expr (mkFrame None [] []) [] 0 false None.

Definition find (r : re * nat) (s : gostring) : list Z :=
  find_from (fst r) (snd r) s (seq 0 (S (length s))).

Definition engine : RegexpEngine (re * nat) := {|
  regexp_Compile := compile;
  FindStringSubmatchIndex := find;
|}.

End RE.

(** The iteration order closed runs compute with. *)
Definition canonicalRange : MapRange := {|
  rangeOrder := map_to_list;
  rangeOrder_perm := fun m => Permutation_refl (map_to_list m);
|}.

(** ** Vocabulary of the specification *)

Section Vocabulary.
Context {Regexp Handler : Type}.

(** The table is in ascending order of prefix. *)
Definition ascending (routes : list (@regexpHandler Regexp Handler)) : Prop :=
  StronglySorted (fun a b => str_le (rh_prefix a) (rh_prefix b)) routes.

(** The routes of a list whose prefix is [p], in the order of the list. *)
Definition with_prefix (p : gostring) (routes : list (@regexpHandler Regexp Handler))
    : list regexpHandler :=
  filter (fun rh => rh_prefix rh = p) routes.

End Vocabulary.

Section ScanVocabulary.
Context {Regexp : Type} {RX : RegexpEngine Regexp}.

(** The nesting depth after the bytes [w], read inside a group at
    depth [d]; [None] when the group closes within [w]. *)
Fixpoint depth_after (d : nat) (w : gostring) : option nat :=
  match w with
  | [] => Some d
  | c :: w' =>
      if Ascii.eqb c "(" then depth_after (S d) w'
      else if Ascii.eqb c ")" then
        match d with
        | S (S d') => depth_after (S d') w'
        | _ => None
        end
      else depth_after d w'
  end.

(** The content of a group: its last parenthesis closes it. *)
Definition balanced (body : gostring) : Prop := depth_after 1 body = Some 1.

(** A literal span, read outside the groups: no parenthesis that an
    escape does not cover.  [esc] says that a backslash is pending;
    the answer says whether one is pending at the end. *)
Fixpoint literal (esc : bool) (w : gostring) : option bool :=
  match w with
  | [] => Some esc
  | c :: w' =>
      if esc then literal false w'
      else if Ascii.eqb c "\" then literal true w'
      else if Ascii.eqb c "(" || Ascii.eqb c ")" then None
      else literal false w'
  end.

(** The content of a group cut at its first [=], wherever it is. *)
Fixpoint first_equals (body : gostring) : option (gostring * gostring) :=
  match body with
  | [] => None
  | c :: w =>
      if Ascii.eqb c "=" then Some ([], w)
      else match first_equals w with
           | Some (name, rx) => Some (c :: name, rx)
           | None => None
           end
  end.

(** The separator in the words of the specification: the first
    unescaped [=] of the group that comes before any nested
    parenthesis opens. *)
Fixpoint spec_separator (body : gostring) : option (gostring * gostring) :=
  match body with
  | [] => None
  | c :: w =>
      if Ascii.eqb c "=" then Some ([], w)
      else if Ascii.eqb c "(" then None
      else if Ascii.eqb c "\" then
        match w with
        | e :: w' =>
            match spec_separator w' with
            | Some (name, rx) => Some (c :: e :: name, rx)
            | None => None
            end
        | [] => None
        end
      else match spec_separator w with
           | Some (name, rx) => Some (c :: name, rx)
           | None => None
           end
  end.

(** The states the scanner goes through around a group. *)
Definition with_parens (d : nat) (st : locals) : locals :=
  mkLocals (l_err st) (l_prefix st) (l_paramsIndex st) (l_paramIndex st)
    (l_groupBegin st) (l_groupEnd st) (l_equals st) d (l_regexpString st)
    (l_escape st).

Definition with_escape (e : bool) (st : locals) : locals :=
  mkLocals (l_err st) (l_prefix st) (l_paramsIndex st) (l_paramIndex st)
    (l_groupBegin st) (l_groupEnd st) (l_equals st) (l_parens st)
    (l_regexpString st) e.

(** After the parenthesis that opens a group at offset [i]. *)
Definition open_group (pattern : gostring) (i : nat) (st : locals) : locals :=
  let piece := removeEscapes (slice pattern (l_groupEnd st) i) in
  mkLocals (l_err st) (if l_groupBegin st =? 0 then piece else l_prefix st)
    (l_paramsIndex st) (l_paramIndex st) i (l_groupEnd st) i 1
    (l_regexpString st ++ QuoteMeta piece ++ str "(") false.

(** After the first [=] of the group, at offset [i], [name] before it. *)
Definition bind_name (nameToField : gmap gostring Z) (name : gostring)
    (i : nat) (pending : option PatternCompileError) (st : locals) : locals :=
  mkLocals pending (l_prefix st)
    (<[default 0%Z (nameToField !! name) := l_paramIndex st]> (l_paramsIndex st))
    (l_paramIndex st + 1) (l_groupBegin st) (l_groupEnd st) i (l_parens st)
    (l_regexpString st) (l_escape st).

(** After the parenthesis that closes the group, at offset [i]. *)
Definition close_group (pattern : gostring) (i : nat) (st : locals) : locals :=
  mkLocals (l_err st) (l_prefix st) (l_paramsIndex st) (l_paramIndex st)
    (l_groupBegin st) (i + 1) (l_equals st) 0
    (l_regexpString st ++ slice pattern (l_equals st + 1) (i + 1))
    (l_escape st).

(** The validation of a variable name. *)
Definition name_error (nameToField : gmap gostring Z) (name : gostring)
    : option errorCause :=
  if length name =? 0 then Some MissingVariableName
  else if negb (allowedName name) then Some InvalidVariableName
  else if bool_decide (nameToField !! name = None) then Some UndefinedVariable
  else None.

(** The error that waits for the end of the group when [name] is bad. *)
Definition pending_error (nameToField : gmap gostring Z) (name : gostring)
    (at_ : nat) : option PatternCompileError :=
  match name_error nameToField name with
  | Some c => Some (mkPatternCompileError c [] [] name at_)
  | None => None
  end.

(** What the compiler returns at the end of a group with the error
    [e] pending. *)
Definition group_error (pattern : gostring) (groupBegin groupEnd : nat)
    (paramsIndex : gmap Z nat) (e : PatternCompileError) : compiled Regexp :=
  mkCompiled None [] paramsIndex
    (Some (PatternError
       (mkPatternCompileError (cause e) (slice pattern groupBegin groupEnd)
          pattern (errName e) (errAt e)))).

(** What the compiler does with the group of content [body] that
    stands between [pre] and [post], when [sep] is what finds the
    name separator: without separator the group is copied whole and
    binds nothing; with one, the name before it is validated, bound
    to the next ordinal, and what follows it is copied. *)
Definition group_scanned (sep : gostring -> option (gostring * gostring))
    (nameToField : gmap gostring Z) (pre body post : gostring) : Prop :=
  let pattern := pre ++ "("%char :: body ++ ")"%char :: post in
  forall st,
    scan (Regexp := Regexp) pattern nameToField 0 pre initial = inl st ->
    l_parens st = 0 -> l_escape st = false ->
    balanced body ->
    let piece := removeEscapes (slice pattern (l_groupEnd st) (length pre)) in
    let opened := l_regexpString st ++ QuoteMeta piece ++ str "(" in
    match sep body with
    | None =>
        exists st',
          scan (Regexp := Regexp) pattern nameToField 0
            (pre ++ "("%char :: body ++ [")"%char]) initial = inl st' /\
          l_regexpString st' = opened ++ body ++ str ")" /\
          l_paramsIndex st' = l_paramsIndex st /\
          l_paramIndex st' = l_paramIndex st
    | Some (name, rx) =>
        match name_error nameToField name with
        | None =>
            exists st',
              scan (Regexp := Regexp) pattern nameToField 0
                (pre ++ "("%char :: body ++ [")"%char]) initial = inl st' /\
              l_regexpString st' = opened ++ rx ++ str ")" /\
              l_paramsIndex st' =
                <[default 0%Z (nameToField !! name) := l_paramIndex st]>
                  (l_paramsIndex st) /\
              l_paramIndex st' = S (l_paramIndex st)
        | Some c =>
            c_err (compilePattern pattern nameToField) =
              Some (PatternError
                 (mkPatternCompileError c ("("%char :: body ++ [")"%char])
                    pattern name (S (length pre))))
        end
    end.

(** The prefix in the words of the specification: the literal span
    that precedes the first group (the whole pattern if it has no
    group), with the escapes removed. *)
Fixpoint literal_head (esc : bool) (w : gostring) : gostring :=
  match w with
  | [] => []
  | c :: w' =>
      if esc then c :: literal_head false w'
      else if Ascii.eqb c "\" then c :: literal_head true w'
      else if Ascii.eqb c "(" then []
      else c :: literal_head false w'
  end.

Definition spec_prefix (pattern : gostring) : gostring :=
  removeEscapes (literal_head false pattern).

(** A pattern that scans to the end is a sequence of literal spans and
    groups. *)
Inductive piece :=
  | Lit (w : gostring)
  | Grp (body : gostring).

Definition render_piece (p : piece) : gostring :=
  match p with
  | Lit w => w
  | Grp body => "("%char :: body ++ [")"%char]
  end.

Definition render (ps : list piece) : gostring :=
  concat (map render_piece ps).

Definition piece_ok (p : piece) : Prop :=
  match p with
  | Lit w => literal false w = Some false
  | Grp body => balanced body
  end.

(** The slot mapping in the words of the specification: a running
    ordinal over the named groups only, recorded at the slot of each
    named group; returns the ordinal reached and the mapping. *)
Fixpoint slots (nameToField : gmap gostring Z) (ps : list piece)
    (ordinal : nat) (groupToSlot : gmap Z nat) : nat * gmap Z nat :=
  match ps with
  | [] => (ordinal, groupToSlot)
  | Lit _ :: ps' => slots nameToField ps' ordinal groupToSlot
  | Grp body :: ps' =>
      match first_equals body with
      | Some (name, _) =>
          slots nameToField ps' (S ordinal)
            (<[default 0%Z (nameToField !! name) := ordinal]> groupToSlot)
      | None => slots nameToField ps' ordinal groupToSlot
      end
  end.

(** The named groups of the pieces in their order, each with its slot
    ([nameToField[name]], which Go reads as 0 for a name that is not
    defined) and its ordinal among the named groups, counted from
    [ordinal]. *)
Fixpoint bindings (nameToField : gmap gostring Z) (ps : list piece)
    (ordinal : nat) : list (Z * nat) :=
  match ps with
  | [] => []
  | Lit _ :: ps' => bindings nameToField ps' ordinal
  | Grp body :: ps' =>
      match first_equals body with
      | Some (name, _) =>
          (default 0%Z (nameToField !! name), ordinal)
            :: bindings nameToField ps' (S ordinal)
      | None => bindings nameToField ps' ordinal
      end
  end.

(** The mapping in the words of the specification: every named group
    has its entry, its slot sent to its ordinal. *)
Definition every_group_bound (bs : list (Z * nat)) (groupToSlot : gmap Z nat)
    : Prop :=
  forall (slot : Z) (k : nat), (slot, k) ∈ bs -> groupToSlot !! slot = Some k.

(** The mapping of the compiler: the entries are those of the named
    groups, and a named group keeps its entry unless a later named
    group has the same slot ([bs !! k] is the named group of ordinal
    [k]). *)
Definition last_group_bound (bs : list (Z * nat)) (groupToSlot : gmap Z nat)
    : Prop :=
  forall (slot : Z) (k : nat),
    groupToSlot !! slot = Some k <->
    bs !! k = Some (slot, k) /\
    forall (j k' : nat), k < j -> bs !! j <> Some (slot, k').

(** While no error is pending, every key of the mapping is the slot
    of a name of [nameToField]. *)
Definition keys_defined (nameToField : gmap gostring Z) (st : locals) : Prop :=
  l_err st = None ->
  forall f v, l_paramsIndex st !! f = Some v ->
    exists name, nameToField !! name = Some f.

End ScanVocabulary.

Section OrderVocabulary.
Context {Regexp : Type} {RX : RegexpEngine Regexp}.
Context {float64 : Type} {FL : Float64 float64} {Handler : Type}.

(** The order of the [range] loop cannot be observed when the mapping
    has at most one entry, or when no entry can panic. *)
Definition entry_safe (t : list StructField) (vals : list gostring)
    (e : Z * nat) : bool :=
  match setField t vals e.1 e.2 (newParams t) with
  | CoercePanic _ => false
  | _ => true
  end.

Definition route_safe (rh : @regexpHandler Regexp Handler) (path : gostring) : bool :=
  match rh_re rh, rh_paramsType rh with
  | Some re, Some t =>
      match extractVals path (FindStringSubmatchIndex re path) with
      | inr vals =>
          (length (map_to_list (rh_paramsIndex rh)) <=? 1)
          || forallb (entry_safe t vals) (map_to_list (rh_paramsIndex rh))
      | inl _ => true
      end
  | _, _ => true
  end.

End OrderVocabulary.

(** ** The routes of the specification's examples

    Handlers are numbered; the regexps are those of the fragment. *)
Module Examples.

Definition exported (name : string) (k : Kind) : StructField :=
  mkField (str name) k [] true.

Definition tagged (name : string) (k : Kind) (tag : string) : StructField :=
  mkField (str name) k (str tag) true.

(** [R1] and [R2] of the precedence example, no params. *)
Definition precedence : list (gostring * nat * paramsArg) :=
  [ (str "/a", 1, NilInterface); (str "/a(/?)", 2, NilInterface) ].

(** [P1] and [P2] of the typed example. *)
Definition P1 : paramsArg :=
  PointerToStruct [exported "V1" Int; exported "V2" Int].
Definition P2 : paramsArg :=
  PointerToStruct [exported "V1" Int; exported "V2" String].

Definition typed : list (gostring * nat * paramsArg) :=
  [ (str "/(V1=.*)/(V2=.*)", 1, P1); (str "/(V1=.*)/(V2=.*)", 2, P2) ].

(** A route on a short prefix and one on a longer, diverging prefix. *)
Definition diverging : list (gostring * nat * paramsArg) :=
  [ (str "/a(.*)", 1, NilInterface); (str "/a/b", 2, NilInterface) ].

(** A named group with a nested group, then a second named group. *)
Definition nested : list (gostring * nat * paramsArg) :=
  [ (str "/(a=x(y*))/(b=.*)", 1,
     PointerToStruct [tagged "A" String "a"; tagged "B" String "b"]) ].

(** A named group whose regexp makes it non-capturing. *)
Definition noncapturing : list (gostring * nat * paramsArg) :=
  [ (str "/(v=?:x)", 1, PointerToStruct [tagged "V" String "v"]) ].

(** The table a list of registrations builds with the fragment engine
    (empty if one of them panics). *)
Definition table (regs : list (gostring * nat * paramsArg))
    : list (@regexpHandler (RE.re * nat) nat) :=
  match HandleAll (RX := RE.engine) regs NewRouter with
  | inr t => t
  | inl _ => []
  end.

End Examples.

(** ** Vocabulary of the further properties *)

(** What [removeEscapes] computes, by recursion on the string: a
    backslash is dropped and the byte after it is kept as it is; a
    backslash that ends the string is dropped. *)
Fixpoint unescape (s : gostring) : gostring :=
  match s with
  | [] => []
  | c :: s' =>
      if Ascii.eqb c "\" then
        match s' with
        | [] => []
        | e :: s'' => e :: unescape s''
        end
      else c :: unescape s'
  end.

(** A literal text as a pattern has to spell it: a backslash before
    each parenthesis and each backslash. *)
Definition escapeLiteral (s : gostring) : gostring :=
  flat_map (fun c =>
              if Ascii.eqb c "(" || Ascii.eqb c ")" || Ascii.eqb c "\"
              then ["\"%char; c] else [c]) s.

(** The regexp a group contributes: what follows its first [=], or
    its whole content when it has none. *)
Definition inner (body : gostring) : gostring :=
  match first_equals body with
  | Some (_, rx) => rx
  | None => body
  end.

(** The regexp of a sequence of pieces: literal spans unescaped and
    quoted, groups reduced to their inner regexp in parentheses. *)
Definition translate_piece (p : piece) : gostring :=
  match p with
  | Lit w => QuoteMeta (unescape w)
  | Grp body => "("%char :: inner body ++ [")"%char]
  end.

Definition translate (ps : list piece) : gostring :=
  concat (map translate_piece ps).

(** Every named group of the pieces has a valid, defined name. *)
Definition names_ok (nameToField : gmap gostring Z) (ps : list piece) : Prop :=
  Forall (fun p => match p with
                   | Lit _ => True
                   | Grp body =>
                       match first_equals body with
                       | Some (name, _) => name_error nameToField name = None
                       | None => True
                       end
                   end) ps.

(** How [readParams] resolves a name, in words: the last field tagged
    with it wins; failing that, the first untagged field of that name
    whose kind and name are allowed. *)
Definition is_tagged (f : StructField) : bool := negb (length (Tag f) =? 0).

Definition eligible (f : StructField) : bool :=
  negb (is_tagged f) && allowedType (FieldKind f) && allowedName (Name f).

Fixpoint last_tagged (fields : list StructField) (i : Z) (n : gostring)
    : option Z :=
  match fields with
  | [] => None
  | f :: rest =>
      match last_tagged rest (i + 1)%Z n with
      | Some j => Some j
      | None => if is_tagged f && bool_decide (Tag f = n) then Some i else None
      end
  end.

Fixpoint first_untagged (fields : list StructField) (i : Z) (n : gostring)
    : option Z :=
  match fields with
  | [] => None
  | f :: rest =>
      if eligible f && bool_decide (Name f = n) then Some i
      else first_untagged rest (i + 1)%Z n
  end.

Definition resolve (fields : list StructField) (n : gostring) : option Z :=
  match last_tagged fields 0%Z n with
  | Some j => Some j
  | None => first_untagged fields 0%Z n
  end.

(** A tagged field that [readParams] refuses. *)
Definition bad_tag (f : StructField) : bool :=
  is_tagged f && negb (allowedName (Tag f) && allowedType (FieldKind f)).

(** The name [n] stands for the field of index [k]: a field of an
    allowed kind that carries [n] as its tag or, untagged, as its
    name. *)
Definition names_field (fields : list StructField) (n : gostring) (k : Z)
    : Prop :=
  allowedName n = true /\ (0 <= k)%Z /\
  exists fld, fields !! Z.to_nat k = Some fld /\
    allowedType (FieldKind fld) = true /\
    (Tag fld = n \/ (Tag fld = [] /\ Name fld = n)).

(** The offsets a regexp engine reports for a group of a match in
    [path]: none (-1, -1), or the bounds of a substring. *)
Definition pair_ok (path : gostring) (p : Z * Z) : Prop :=
  (p.1 = (-1)%Z /\ p.2 = (-1)%Z) \/
  (0 <= p.1 <= p.2 /\ p.2 <= Z.of_nat (length path))%Z.

Definition flat (pairs : list (Z * Z)) : list Z :=
  flat_map (fun p => [p.1; p.2]) pairs.

(** Groups that follow one another in [path] from offset [e] on, each
    of them matched. *)
Fixpoint sequential (path : gostring) (e : Z) (pairs : list (Z * Z)) : Prop :=
  match pairs with
  | [] => True
  | p :: rest =>
      (e <= p.1 <= p.2 /\ p.2 <= Z.of_nat (length path))%Z /\
      sequential path p.2 rest
  end.

Definition capture (path : gostring) (p : Z * Z) : gostring :=
  slice path (Z.to_nat p.1) (Z.to_nat p.2).

Section ValueVocabulary.
Context {float64 : Type} {FL : Float64 float64}.

(** The value [x] is what a field of kind [k] receives from the
    extracted value [s]: the text itself in a string field; the
    number parsed from it, wrapped to the width of the field, in an
    integer field of a declared width; the float parsed from it in a
    [float64] field.  Of an [int], [uint] or [float32] field, whose
    content depends on the width of [int] on the target or on the
    rounding to [float32], only this is said: the text parses, and
    the field holds a value of its sort. *)
Definition holds (k : Kind) (s : gostring) (x : value (float64 := float64))
    : Prop :=
  match k with
  | Int8 | Int16 | Int32 | Int64 =>
      exists n, Strconv.ParseInt s = Some n /\
                x = IntValue (wrap_signed (bits k) n)
  | Int =>
      exists n, Strconv.ParseInt s = Some n /\ exists v, x = IntValue v
  | Uint8 | Uint16 | Uint32 | Uint64 =>
      exists n, Strconv.ParseUint s = Some n /\
                x = UintValue (wrap_unsigned (bits k) n)
  | Uint =>
      exists n, Strconv.ParseUint s = Some n /\ exists v, x = UintValue v
  | Float64K =>
      exists r, ParseFloat s = Some r /\ x = FloatValue Float64K r
  | Float32 =>
      exists r, ParseFloat s = Some r /\ exists r', x = FloatValue Float32 r'
  | String => x = StringValue s
  | _ => False
  end.

End ValueVocabulary.

(** The float type of closed runs over structs that have no float
    field: no text is parsed. *)
Definition noFloat : Float64 Empty_set := {| ParseFloat := fun _ => None |}.

(** An iteration order other than the canonical one: its reverse. *)
Definition reverseRange : MapRange := {|
  rangeOrder := fun m => reverse (map_to_list m);
  rangeOrder_perm := fun m => reverse_Permutation (map_to_list m);
|}.

(** * Properties *)

(** ** The order on strings *)

Lemma str_compare_refl a : str_compare a a = Eq.
Proof.
  induction a as [|x a IH]; simpl; [done|].
  by rewrite N.compare_refl.
Qed.

Lemma str_compare_eq a b : str_compare a b = Eq -> a = b.
Proof.
  revert b; induction a as [|x a IH]; intros [|y b]; simpl; try done.
  destruct (N.compare_spec (N_of_ascii x) (N_of_ascii y)) as [E| |]; try done.
  intros Hab. f_equal; [|by apply IH].
  rewrite <- (ascii_N_embedding x), <- (ascii_N_embedding y). by rewrite E.
Qed.

Lemma str_compare_antisym a b : str_compare b a = CompOpp (str_compare a b).
Proof.
  revert b; induction a as [|x a IH]; intros [|y b]; simpl; try done.
  rewrite (N.compare_antisym (N_of_ascii x) (N_of_ascii y)).
  destruct (N.compare (N_of_ascii x) (N_of_ascii y)); simpl; auto.
Qed.

Lemma str_lt_trans a b c : str_lt a b -> str_lt b c -> str_lt a c.
Proof.
  unfold str_lt. revert b c.
  induction a as [|x a IH]; intros [|y b] [|z c]; simpl; try done.
  destruct (N.compare_spec (N_of_ascii x) (N_of_ascii y)) as [E|L|G];
    destruct (N.compare_spec (N_of_ascii y) (N_of_ascii z)) as [E'|L'|G'];
    try done; intros H1 H2.
  - rewrite E, E', N.compare_refl. eauto.
  - rewrite E. by apply N.compare_lt_iff in L' as ->.
  - rewrite <- E'. by apply N.compare_lt_iff in L as ->.
  - assert (N_of_ascii x < N_of_ascii z)%N as L'' by lia.
    by apply N.compare_lt_iff in L'' as ->.
Qed.

Lemma str_le_refl a : str_le a a.
Proof. unfold str_le. by rewrite str_compare_refl. Qed.

Lemma str_le_lt_or_eq a b : str_le a b <-> str_lt a b \/ a = b.
Proof.
  unfold str_le, str_lt. split.
  - destruct (str_compare a b) eqn:E; [|by left|done].
    right. by apply str_compare_eq.
  - intros [->| ->]; [done|]. by rewrite str_compare_refl.
Qed.

Lemma str_le_trans a b c : str_le a b -> str_le b c -> str_le a c.
Proof.
  rewrite !str_le_lt_or_eq. intros [H1| ->] [H2| ->]; eauto.
  left. eapply str_lt_trans; eauto.
Qed.

Lemma str_lt_le a b : str_lt a b -> str_le a b.
Proof. rewrite str_le_lt_or_eq. auto. Qed.

Lemma str_lt_irrefl a : ~ str_lt a a.
Proof. unfold str_lt. by rewrite str_compare_refl. Qed.

Lemma str_geb_false a b : str_geb a b = false <-> str_lt a b.
Proof. unfold str_geb, str_lt. destruct (str_compare a b); naive_solver. Qed.

Lemma str_geb_true a b : str_geb a b = true <-> str_le b a.
Proof.
  unfold str_geb, str_le. rewrite (str_compare_antisym a b).
  destruct (str_compare a b); naive_solver.
Qed.

Lemma str_gtb_true a b : str_gtb a b = true <-> str_lt b a.
Proof.
  unfold str_gtb, str_lt. rewrite (str_compare_antisym a b).
  destruct (str_compare a b); naive_solver.
Qed.

(** ** sort.Search returns the least index at which a monotone test holds *)

Lemma search_loop_S fuel (f : nat -> bool) i j :
  Sort.search_loop (S fuel) f i j =
    if i <? j then
      if negb (f ((i + j) / 2)) then Sort.search_loop fuel f ((i + j) / 2 + 1) j
      else Sort.search_loop fuel f i ((i + j) / 2)
    else i.
Proof. reflexivity. Qed.

Lemma search_loop_spec fuel (f : nat -> bool) n lo hi :
  lo <= hi <= n -> hi - lo <= fuel ->
  (forall x y, x <= y < n -> f x = true -> f y = true) ->
  (forall x, x < lo -> f x = false) ->
  (forall x, hi <= x < n -> f x = true) ->
  lo <= Sort.search_loop fuel f lo hi <= hi /\
  (forall x, x < Sort.search_loop fuel f lo hi -> f x = false) /\
  (forall x, Sort.search_loop fuel f lo hi <= x < n -> f x = true).
Proof.
  revert lo hi. induction fuel as [|fuel IH]; intros lo hi Hr Hf Hmono Hlo Hhi.
  - assert (hi = lo) as -> by lia. simpl. auto.
  - rewrite search_loop_S. destruct (Nat.ltb_spec lo hi) as [Hlt|Hge].
    + pose proof (Nat.div_mod_eq (lo + hi) 2) as Hdm.
      pose proof (Nat.mod_upper_bound (lo + hi) 2) as Hmb.
      set (h := (lo + hi) / 2) in *.
      assert (lo <= h < hi) as Hh by lia.
      clearbody h. clear Hdm Hmb.
      destruct (f h) eqn:Efh; simpl.
      * assert (forall x, h <= x < n -> f x = true) as Hh'.
        { intros x Hx. apply (Hmono h x); [lia|done]. }
        destruct (IH lo h ltac:(lia) ltac:(lia) Hmono Hlo Hh') as (?&?&?).
        split; [lia|]. auto.
      * assert (forall x, x < h + 1 -> f x = false) as Hl'.
        { intros x Hx. destruct (f x) eqn:Efx; [|done].
          rewrite (Hmono x h) in Efh; [done|lia|done]. }
        destruct (IH (h + 1) hi ltac:(lia) ltac:(lia) Hmono Hl' Hhi) as (?&?&?).
        split; [lia|]. auto.
    + assert (hi = lo) as -> by lia. auto.
Qed.

Lemma Search_spec n (f : nat -> bool) :
  (forall x y, x <= y < n -> f x = true -> f y = true) ->
  Sort.Search n f <= n /\
  (forall x, x < Sort.Search n f -> f x = false) /\
  (forall x, Sort.Search n f <= x < n -> f x = true).
Proof.
  intros Hmono. unfold Sort.Search.
  destruct (search_loop_spec n f n 0 n) as (?&?&?); try lia; auto.
  split; [lia|]. auto.
Qed.

(** ** The route table *)

Section Table.
Context {Regexp : Type} {RX : RegexpEngine Regexp} {Handler : Type}.
Implicit Types (rh : @regexpHandler Regexp Handler) (routes : list (@regexpHandler Regexp Handler)).

Lemma ascending_lookup routes i j a b :
  ascending routes -> i <= j ->
  routes !! i = Some a -> routes !! j = Some b ->
  str_le (rh_prefix a) (rh_prefix b).
Proof.
  intros Hs Hij Ha Hb.
  destruct (decide (i = j)) as [->|Hne].
  { rewrite Ha in Hb. injection Hb as ->. apply str_le_refl. }
  rewrite <- (take_drop j routes) in Hs.
  apply StronglySorted_app in Hs as (Hs & _ & _). apply Hs.
  - apply elem_of_take. exists i. split; [done|lia].
  - apply list_elem_of_lookup. exists 0. by rewrite lookup_drop, Nat.add_0_r.
Qed.

Lemma prefix_at_lookup routes i rh :
  routes !! i = Some rh -> prefix_at routes i = rh_prefix rh.
Proof. unfold prefix_at. by intros ->. Qed.

(** Where [Handle] inserts: everything before has a smaller prefix,
    everything after a prefix at least as large. *)
Lemma insert_point rh routes :
  ascending routes ->
  let i := Sort.Search (length routes)
             (fun i => str_geb (prefix_at routes i) (rh_prefix rh)) in
  (forall a, a ∈ take i routes -> str_lt (rh_prefix a) (rh_prefix rh)) /\
  (forall b, b ∈ drop i routes -> str_le (rh_prefix rh) (rh_prefix b)).
Proof.
  intros Hs.
  destruct (Search_spec (length routes)
              (fun i => str_geb (prefix_at routes i) (rh_prefix rh)))
    as (Hle & Hbelow & Habove).
  { intros x y Hxy. rewrite !str_geb_true. intros Hx.
    destruct (lookup_lt_is_Some_2 routes x) as [a Ha]; [lia|].
    destruct (lookup_lt_is_Some_2 routes y) as [b Hb]; [lia|].
    rewrite (prefix_at_lookup _ _ _ Ha) in Hx.
    rewrite (prefix_at_lookup _ _ _ Hb).
    eapply str_le_trans; [exact Hx|].
    apply (ascending_lookup routes x y a b); [done|lia|done|done]. }
  simpl. split.
  - intros a (k & Hk & Hlt)%elem_of_take.
    specialize (Hbelow k Hlt). rewrite (prefix_at_lookup _ _ _ Hk) in Hbelow.
    by apply str_geb_false.
  - intros b (k & Hk)%list_elem_of_lookup. rewrite lookup_drop in Hk.
    pose proof (lookup_lt_Some _ _ _ Hk) as Hlt.
    specialize (Habove _ (conj (Nat.le_add_r _ k) Hlt)).
    rewrite (prefix_at_lookup _ _ _ Hk) in Habove.
    by apply str_geb_true.
Qed.

(** The boundary the dispatcher starts from leaves no candidate above
    it: a route whose prefix leads the path has a prefix that is not
    greater than the path. *)
Lemma HasPrefix_le s p : HasPrefix s p = true -> str_le p s.
Proof.
  revert s. induction p as [|y p IH]; intros [|x s]; simpl; try done.
  destruct (Ascii.eqb_spec x y) as [->|]; [|done]. intros Hp.
  unfold str_le in *. simpl. rewrite N.compare_refl. by apply IH.
Qed.

(** X20. In a table in ascending order of prefix, every route whose
    prefix leads the path stands below the point where the dispatcher
    starts its search. *)
Lemma boundary_above_candidates routes path i rh :
  ascending routes ->
  routes !! i = Some rh -> HasPrefix path (rh_prefix rh) = true ->
  i < boundary routes path.
Proof.
  intros Hs Hi Hp. unfold boundary.
  destruct (Search_spec (length routes)
              (fun i => str_gtb (prefix_at routes i) path))
    as (Hle & Hbelow & Habove).
  { intros x y Hxy. rewrite !str_gtb_true. intros Hx.
    destruct (lookup_lt_is_Some_2 routes x) as [a Ha]; [lia|].
    destruct (lookup_lt_is_Some_2 routes y) as [b Hb]; [lia|].
    rewrite (prefix_at_lookup _ _ _ Ha) in Hx.
    rewrite (prefix_at_lookup _ _ _ Hb).
    pose proof (ascending_lookup routes x y a b Hs ltac:(lia) Ha Hb) as Hab.
    apply str_le_lt_or_eq in Hab as [Hab|Hab]; [|by rewrite <- Hab].
    by eapply str_lt_trans. }
  destruct (Nat.lt_ge_cases i (Sort.Search (length routes)
              (fun i => str_gtb (prefix_at routes i) path))) as [|Hge]; [done|].
  pose proof (lookup_lt_Some _ _ _ Hi) as Hlt.
  specialize (Habove i (conj Hge Hlt)). rewrite (prefix_at_lookup _ _ _ Hi) in Habove.
  apply str_gtb_true in Habove. apply HasPrefix_le in Hp.
  apply str_le_lt_or_eq in Hp as [Hp|Hp].
  - exfalso. apply (str_lt_irrefl path). by eapply str_lt_trans.
  - rewrite Hp in Habove. by apply str_lt_irrefl in Habove.
Qed.

Lemma insertRoute_ascending rh routes :
  ascending routes -> ascending (insertRoute rh routes).
Proof.
  intros Hs. destruct (insert_point rh routes Hs) as [Hb Ha].
  unfold insertRoute, ascending.
  pose proof Hs as Hs'. unfold ascending in Hs'.
  rewrite <- (take_drop (Sort.Search (length routes)
     (fun i => str_geb (prefix_at routes i) (rh_prefix rh))) routes) in Hs'.
  apply StronglySorted_app in Hs' as (Hcross & Hl & Hr).
  apply StronglySorted_app. split_and!; [|done|].
  - intros x1 x2 Hx1 [->|Hx2]%elem_of_cons.
    + apply str_lt_le. by apply Hb.
    + by apply Hcross.
  - apply StronglySorted_cons. split; [|done].
    apply Forall_forall. intros b Hb'. by apply Ha.
Qed.

(** The insertion puts the new route in front of its run. *)
Lemma insertRoute_with_prefix rh routes p :
  ascending routes ->
  with_prefix p (insertRoute rh routes) =
    if decide (rh_prefix rh = p) then rh :: with_prefix p routes
    else with_prefix p routes.
Proof.
  intros Hs. destruct (insert_point rh routes Hs) as [Hb _].
  unfold insertRoute, with_prefix. simpl in Hb.
  set (i := Sort.Search _ _) in *.
  assert (filter (fun rh0 => rh_prefix rh0 = p) routes =
          filter (fun rh0 => rh_prefix rh0 = p) (take i routes) ++
          filter (fun rh0 => rh_prefix rh0 = p) (drop i routes)) as ->.
  { by rewrite <- filter_app, take_drop. }
  rewrite filter_app, filter_cons.
  destruct (decide (rh_prefix rh = p)) as [Hp|Hp]; [|done].
  assert (filter (fun rh0 => rh_prefix rh0 = p) (take i routes) = []) as ->; [|done].
  destruct (filter _ (take i routes)) as [|a rest] eqn:E; [done|].
  assert (a ∈ filter (fun rh0 => rh_prefix rh0 = p) (take i routes)) as Ha.
  { rewrite E. apply list_elem_of_here. }
  apply list_elem_of_filter in Ha as [Hpa Ha]. subst p.
  apply Hb in Ha. rewrite Hpa in Ha. by apply str_lt_irrefl in Ha.
Qed.

Lemma with_prefix_snoc p (rhs : list (@regexpHandler Regexp Handler)) rh :
  reverse (with_prefix p (rhs ++ [rh])) =
    if decide (rh_prefix rh = p) then rh :: reverse (with_prefix p rhs)
    else reverse (with_prefix p rhs).
Proof.
  unfold with_prefix. rewrite filter_app, filter_cons, filter_nil.
  destruct (decide (rh_prefix rh = p)).
  - by rewrite reverse_app.
  - by rewrite app_nil_r.
Qed.

(** The invariant of the table along a run of registrations that
    started from the routes [rhs0], now held in [routes0]. *)
Lemma HandleAll_invariant regs routes0 rhs0 table :
  ascending routes0 ->
  (forall p, with_prefix p routes0 = reverse (with_prefix p rhs0)) ->
  HandleAll regs routes0 = inr table ->
  exists rhs,
    Forall2 (fun '(pattern, handler, params) rh =>
               newRoute pattern handler params = inr rh) regs rhs /\
    ascending table /\
    forall p, with_prefix p table = reverse (with_prefix p (rhs0 ++ rhs)).
Proof.
  revert routes0 rhs0.
  induction regs as [|[[pattern handler] params] regs IH];
    intros routes0 rhs0 Hs Hrun Hall; simpl in Hall.
  - injection Hall as <-. exists []. rewrite app_nil_r. by repeat split.
  - unfold Handle in Hall.
    destruct (newRoute pattern handler params) as [e|rh] eqn:Enew; [done|].
    destruct (IH (insertRoute rh routes0) (rhs0 ++ [rh])) as (rhs & Hrhs & Hasc & Hruns).
    + by apply insertRoute_ascending.
    + intros p. rewrite insertRoute_with_prefix, with_prefix_snoc by done.
      by rewrite Hrun.
    + done.
    + exists (rh :: rhs). split_and!; [by constructor|done|].
      intros p. rewrite Hruns. by rewrite <- app_assoc.
Qed.

(** C4. After any sequence of registrations the table is in ascending
    order of prefix, and the routes of any one prefix stand in it in
    the reverse of the order of their registration: the latest at the
    lowest index of the run, the earliest at the highest. *)
Theorem table_sorted_newest_first regs table :
  HandleAll regs NewRouter = inr table ->
  exists rhs,
    Forall2 (fun '(pattern, handler, params) rh =>
               newRoute pattern handler params = inr rh) regs rhs /\
    ascending table /\
    forall p, with_prefix p table = reverse (with_prefix p rhs).
Proof.
  intros Hall.
  apply (HandleAll_invariant regs NewRouter [] table); [constructor|done|done].
Qed.

End Table.

(** ** Coercion and the order of the [range] loop *)

Section Order.
Context {Regexp : Type} {RX : RegexpEngine Regexp}.
Context {float64 : Type} {FL : Float64 float64} {Handler : Type}.

(** What an entry does is decided by the entry alone; the struct built
    so far only receives the value. *)
Lemma setField_cases t vals f v :
  (exists p, forall ps, setField t vals f v ps = CoercePanic p) \/
  (forall ps, setField t vals f v ps = Reject) \/
  (exists x, (0 <= f)%Z /\
     forall ps, setField t vals f v ps = Accept (<[Z.to_nat f := Some x]> ps)).
Proof.
  unfold setField. destruct (Z.ltb_spec f 0); [left; eauto|].
  destruct (t !! Z.to_nat f) as [fld|]; [|left; eauto].
  destruct (FieldKind fld); try (left; eauto; fail);
    destruct (vals !! v) as [s|]; try (left; eauto; fail).
  all: try destruct (Strconv.ParseInt s); try destruct (Strconv.ParseUint s);
    try destruct (ParseFloat s); try (right; left; done).
  all: destruct (Exported fld); [right; right; eauto|left; eauto].
Qed.

Lemma entry_safe_spec t vals f v :
  entry_safe t vals (f, v) = true ->
  (forall ps, setField t vals f v ps = Reject) \/
  (exists x, (0 <= f)%Z /\
     forall ps, setField t vals f v ps = Accept (<[Z.to_nat f := Some x]> ps)).
Proof.
  unfold entry_safe. simpl.
  destruct (setField_cases t vals f v) as [[p Hp]|[Hr|Ha]]; [|by left|by right].
  by rewrite Hp.
Qed.

Lemma setFields_perm t vals l1 l2 :
  l1 ≡ₚ l2 ->
  forallb (entry_safe t vals) l1 = true -> NoDup l1.*1 ->
  forall ps, setFields t vals l1 ps = setFields t vals l2 ps.
Proof.
  induction 1 as [|[f v] l1 l2 Hp IH|[f1 v1] [f2 v2] l|l1 l2 l3 Hp1 IH1 Hp2 IH2];
    intros Hsafe Hnd ps.
  - done.
  - simpl in *. apply andb_prop in Hsafe as [Hs1 Hs2].
    apply NoDup_cons in Hnd as [_ Hnd].
    destruct (entry_safe_spec _ _ _ _ Hs1) as [Hr|(x & _ & Ha)].
    + by rewrite Hr.
    + rewrite Ha. by apply IH.
  - simpl in *. apply andb_prop in Hsafe as [Hs2 [Hs1 _]%andb_prop].
    apply NoDup_cons in Hnd as [Hne _].
    assert (f1 <> f2) as Hf by (intros ->; apply Hne; left).
    destruct (entry_safe_spec _ _ _ _ Hs1) as [Hr1|(x1 & Hf1 & Ha1)];
      destruct (entry_safe_spec _ _ _ _ Hs2) as [Hr2|(x2 & Hf2 & Ha2)];
      repeat first [rewrite Hr1|rewrite Hr2|rewrite Ha1|rewrite Ha2]; try done.
    rewrite list_insert_insert_ne; [done|lia].
  - rewrite IH1 by done. apply IH2.
    + rewrite forallb_forall in *. intros e He. apply Hsafe.
      apply list_elem_of_In. rewrite Hp1. by apply list_elem_of_In.
    + by rewrite <- Hp1.
Qed.

Section AnyOrder.
Context (MR : MapRange).
Implicit Types (rh : @regexpHandler Regexp Handler).

Lemma tryRoute_order rh path :
  route_safe rh path = true ->
  tryRoute (MR := MR) rh path = tryRoute (MR := canonicalRange) rh path.
Proof.
  unfold route_safe, tryRoute, serveMatch.
  destruct (rh_re rh) as [re|]; [|done].
  destruct (FindStringSubmatchIndex re path) as [|a is_] eqn:Eis; [done|].
  destruct (rh_paramsType rh) as [t|]; [|done].
  destruct (extractVals path (a :: is_)) as [p|vals]; [done|].
  intros Hsafe.
  assert (setFields t vals (map_to_list (rh_paramsIndex rh)) (newParams t) =
          setFields t vals (rangeOrder (rh_paramsIndex rh)) (newParams t)) as Hperm.
  { apply orb_prop in Hsafe as [Hshort|Hsafe].
    - pose proof (rangeOrder_perm (rh_paramsIndex rh)) as Hp.
      apply Nat.leb_le in Hshort.
      destruct (map_to_list (rh_paramsIndex rh)) as [|e [|e' l]]; simpl in Hshort.
      + by apply Permutation_nil_r in Hp as ->.
      + by apply Permutation_singleton_r in Hp as ->.
      + lia.
    - apply setFields_perm; [|done|apply NoDup_fst_map_to_list].
      symmetry. apply rangeOrder_perm. }
  by rewrite <- Hperm.
Qed.

(** Whatever the order of the [range] loops, the dispatcher does what
    it does with the canonical one, if no entry of a route it may
    reach can panic. *)
Lemma keepLooking_order routes path h :
  forallb (fun rh => route_safe rh path) (take h routes) = true ->
  keepLooking (MR := MR) routes path h =
    keepLooking (MR := canonicalRange) routes path h /\
  evaluated (MR := MR) routes path h =
    evaluated (MR := canonicalRange) routes path h.
Proof.
  induction h as [|h IH]; [done|]. intros Hsafe. simpl.
  destruct (routes !! h) as [rh|] eqn:Eh; [|done].
  rewrite (take_S_r _ _ _ Eh), forallb_app in Hsafe.
  apply andb_prop in Hsafe as [Hs1 Hs2]. simpl in Hs2.
  apply andb_prop in Hs2 as [Hs2 _].
  rewrite (tryRoute_order rh path Hs2).
  destruct (IH Hs1) as [-> ->]. done.
Qed.

End AnyOrder.
End Order.

(** ** The dispatcher on the examples *)

Section Runs.
Context (MR : MapRange) (float64 : Type) (F : Float64 float64).
Import Examples.
Local Existing Instance RE.engine.

Local Abbreviation serve := (ServeHTTP (RX := RE.engine) (FL := F) (MR := MR)).
Local Abbreviation tried routes path :=
  (evaluated (RX := RE.engine) (FL := F) (MR := MR) routes path
     (boundary routes path)).

(** Runs a dispatch whose outcome no iteration order can change. *)
Local Ltac run :=
  unfold ServeHTTP;
  match goal with
  | |- context [keepLooking ?routes ?path ?h] =>
      destruct (keepLooking_order (FL := F) MR routes path h) as [-> _];
      [by vm_compute|by vm_compute]
  | |- context [evaluated ?routes ?path ?h] =>
      destruct (keepLooking_order (FL := F) MR routes path h) as [_ ->];
      [by vm_compute|by vm_compute]
  end.

(** C2. With [R1] registered before [R2] ([Examples.precedence]), the
    path [/a] goes to the handler of [R1] and [/a/] to the one of [R2]. *)
Theorem precedence_a_then_a_slash :
  HandleAll precedence NewRouter = inr (table precedence) /\
  serve (table precedence) (str "/a") = Served 1 None /\
  serve (table precedence) (str "/a/") = Served 2 None.
Proof. split_and!; [by vm_compute|run|run]. Qed.

(** C3. With [P1] ([V2] an int) registered before [P2] ([V2] a
    string) on the same pattern, the path [/123/abc] reaches [P1]
    first, which is rejected since [abc] is no integer, then [P2],
    whose handler is called with [V1 = 123] and [V2 = abc]. *)
Theorem backtracking_rejects_P1_selects_P2 :
  let path := str "/123/abc" in
  HandleAll typed NewRouter = inr (table typed) /\
  map rh_handler (table typed) = [2; 1] /\
  (exists rh, table typed !! 1 = Some rh /\
     tryRoute (FL := F) (MR := MR) rh path = KeepLooking) /\
  tried (table typed) path = [1; 0] /\
  serve (table typed) path =
    Served 2 (Some [Some (IntValue 123); Some (StringValue (str "abc"))]).
Proof.
  split_and!; [by vm_compute|by vm_compute| |run|run].
  destruct (table typed !! 1) as [rh|] eqn:E; [|by vm_compute in E].
  exists rh. split; [done|].
  rewrite (tryRoute_order MR rh); vm_compute in E; injection E as <-; by vm_compute.
Qed.

(** The defect behind C1: the first route of [Examples.diverging] has
    the prefix [/a], a prefix of the path [/a/c], and would serve it;
    with the route [/a/b] registered too, no route is evaluated and
    the answer is [NotFound]. *)
Theorem diverging_prefix_hides_route :
  let path := str "/a/c" in
  HandleAll diverging NewRouter = inr (table diverging) /\
  (exists rh, table diverging !! 0 = Some rh /\
     rh_prefix rh = str "/a" /\ HasPrefix path (rh_prefix rh) = true /\
     tryRoute (FL := F) (MR := MR) rh path = Done (Served 1 None)) /\
  tried (table diverging) path = [] /\
  serve (table diverging) path = NotFound.
Proof.
  split_and!; [by vm_compute| |run|run].
  destruct (table diverging !! 0) as [rh|] eqn:E; [|by vm_compute in E].
  exists rh. vm_compute in E. injection E as <-. by vm_compute.
Qed.

(** The defect behind C6: for the pattern of [Examples.nested] and the
    path [/x/q], the group nested in the group [a] matches the empty
    string at the end of the capture kept for [a] and is kept too:
    three values for the two groups of the pattern, and [b] receives
    the empty string, not [q]. *)
Theorem nested_empty_capture_is_kept :
  let path := str "/x/q" in
  str "/(a=x(y*))/(b=.*)" =
    render [Lit (str "/"); Grp (str "a=x(y*)"); Lit (str "/"); Grp (str "b=.*")] /\
  HandleAll nested NewRouter = inr (table nested) /\
  (exists rh re, table nested = [rh] /\ rh_re rh = Some re /\
     FindStringSubmatchIndex re path = [0; 4; 1; 2; 2; 2; 3; 4]%Z /\
     extractVals path (FindStringSubmatchIndex re path) =
       inr [str "x"; str ""; str "q"]) /\
  serve (table nested) path =
    Served 1 (Some [Some (StringValue (str "x")); Some (StringValue (str ""))]).
Proof.
  split_and!; [done|by vm_compute| |run].
  destruct (table nested) as [|rh [|? ?]] eqn:E; try by vm_compute in E.
  vm_compute in E. injection E as <-.
  eexists _, _. split_and!; [done|reflexivity|by vm_compute|by vm_compute].
Qed.

(** The defect behind C10: the pattern of [Examples.noncapturing]
    registers without error, its named group is not capturing, and the
    dispatch of [/x] indexes an empty list of values with ordinal 0. *)
Theorem noncapturing_named_group_panics :
  let path := str "/x" in
  HandleAll noncapturing NewRouter = inr (table noncapturing) /\
  (exists rh re, table noncapturing = [rh] /\ rh_re rh = Some re /\
     rh_paramsIndex rh !! 0%Z = Some 0 /\
     extractVals path (FindStringSubmatchIndex re path) = inr []) /\
  serve (table noncapturing) path = Panicked IndexOutOfRange.
Proof.
  split_and!; [by vm_compute| |run].
  destruct (table noncapturing) as [|rh [|? ?]] eqn:E; try by vm_compute in E.
  vm_compute in E. injection E as <-.
  eexists _, _. split_and!; [done|reflexivity|by vm_compute|by vm_compute].
Qed.

End Runs.

(** ** Slices, separators and depths *)

Lemma slice_middle (p a b c : gostring) n1 n2 :
  p = a ++ b ++ c -> n1 = length a -> n2 = length a + length b ->
  slice p n1 n2 = b.
Proof.
  intros -> -> ->. unfold slice. rewrite drop_app_length.
  replace (length a + length b - length a) with (length b) by lia.
  by rewrite take_app_length.
Qed.

Lemma first_equals_Some body name rx :
  first_equals body = Some (name, rx) ->
  body = name ++ "="%char :: rx /\ first_equals name = None.
Proof.
  revert name. induction body as [|c body IH]; intros name; simpl; [done|].
  destruct (Ascii.eqb_spec c "=") as [->|Hc].
  - by intros [= <- <-].
  - destruct (first_equals body) as [[n r]|]; [|done].
    intros [= <- <-]. destruct (IH n eq_refl) as [-> Hn]. split; [done|].
    simpl. rewrite Hn. by destruct (Ascii.eqb_spec c "=").
Qed.

Lemma depth_after_app d w1 w2 :
  depth_after d (w1 ++ w2) = depth_after d w1 ≫= fun d' => depth_after d' w2.
Proof.
  revert d. induction w1 as [|c w1 IH]; intros d; simpl; [done|].
  destruct (Ascii.eqb c "("); [apply IH|].
  destruct (Ascii.eqb c ")"); [|apply IH].
  destruct d as [|[|d]]; [done|done|apply IH].
Qed.

Lemma depth_after_pos d w d' :
  d <> 0 -> depth_after d w = Some d' -> d' <> 0.
Proof.
  revert d. induction w as [|c w IH]; intros d Hd; simpl.
  - by intros [= <-].
  - destruct (Ascii.eqb c "("); [by apply IH|].
    destruct (Ascii.eqb c ")"); [|by apply IH].
    destruct d as [|[|d]]; [done|done|by apply IH].
Qed.

(** ** The scanner of compilePattern *)

Section Scanner.
Context {Regexp : Type} {RX : RegexpEngine Regexp}.
Context (pattern : gostring) (nameToField : gmap gostring Z).

Local Abbreviation scan_ := (scan (Regexp := Regexp) pattern nameToField).
Local Abbreviation step_ := (step (Regexp := Regexp) pattern nameToField).

Lemma scan_app i w1 w2 st :
  scan_ i (w1 ++ w2) st =
    match scan_ i w1 st with
    | inl st' => scan_ (i + length w1) w2 st'
    | inr res => inr res
    end.
Proof.
  revert i st. induction w1 as [|c w1 IH]; intros i st; simpl.
  - by rewrite Nat.add_0_r.
  - destruct (step _ _ i c st) as [st'|res]; [|done].
    rewrite IH. by rewrite Nat.add_succ_comm.
Qed.

(** Inside a group only the depth changes, as long as no [=] is read
    that could be the first of the group. *)
Lemma first_equals_tail c w :
  first_equals (c :: w) = None -> first_equals w = None.
Proof.
  simpl. destruct (Ascii.eqb c "="); [done|].
  by destruct (first_equals w) as [[]|].
Qed.

Lemma scan_inside w i st d :
  l_parens st <> 0 -> l_escape st = false ->
  first_equals w = None \/ l_equals st <> l_groupBegin st ->
  depth_after (l_parens st) w = Some d ->
  scan_ i w st = inl (with_parens d st).
Proof.
  revert i st. induction w as [|c w IH]; intros i st Hp He Heq Hd.
  - destruct st. simpl in *. by injection Hd as ->.
  - assert (first_equals w = None \/ l_equals st <> l_groupBegin st) as Heq'.
    { destruct Heq as [Heq|]; [left|by right]. by eapply first_equals_tail. }
    assert (Ascii.eqb c "=" && (l_equals st =? l_groupBegin st) = false) as Hsep.
    { destruct Heq as [Heq|Hne].
      - simpl in Heq. by destruct (Ascii.eqb c "=").
      - apply Nat.eqb_neq in Hne. rewrite Hne. apply andb_false_r. }
    destruct st as [err prefix pI pc gB gE eq par rS esc]. simpl in *. subst esc.
    destruct par as [|par]; [done|]. simpl.
    destruct (Ascii.eqb c "(") eqn:Eo.
    { rewrite IH; simpl; [done|lia|done|done|by rewrite Nat.add_1_r]. }
    destruct (Ascii.eqb c ")") eqn:Ec.
    { destruct par as [|par]; [done|]. rewrite Nat.sub_0_r. simpl.
      rewrite IH; simpl; [done|lia|done|done|done]. }
    rewrite Hsep. rewrite IH; simpl; [done|lia|done|done|done].
Qed.

(** Outside the groups a literal span only moves the escape flag. *)
Lemma scan_literal w i st e :
  l_parens st = 0 -> literal (l_escape st) w = Some e ->
  scan_ i w st = inl (with_escape e st).
Proof.
  revert i st. induction w as [|c w IH]; intros i st Hp Hl.
  - destruct st. simpl in *. by injection Hl as ->.
  - destruct st as [err prefix pI pc gB gE eq par rS esc]. simpl in *. subst par.
    destruct esc; simpl.
    { by rewrite IH. }
    destruct (Ascii.eqb c "\") eqn:Eb; simpl.
    { by rewrite IH. }
    destruct (Ascii.eqb c "(") eqn:Eo; [done|].
    destruct (Ascii.eqb c ")") eqn:Ec; [done|]. simpl in Hl.
    by rewrite IH.
Qed.

(** The three steps that shape a group. *)
Lemma step_open i st :
  l_parens st = 0 -> l_escape st = false ->
  step_ i "(" st = inl (open_group pattern i st).
Proof. destruct st. simpl. by intros -> ->. Qed.

Lemma step_equals i st :
  l_parens st <> 0 -> l_escape st = false -> l_equals st = l_groupBegin st ->
  let name := slice pattern (l_groupBegin st + 1) i in
  step_ i "=" st =
    inl (bind_name nameToField name i
           (match pending_error nameToField name (l_groupBegin st + 1) with
            | Some e => Some e
            | None => l_err st
            end) st).
Proof.
  destruct st as [err prefix pI pc gB gE eq par rS esc]. simpl.
  intros Hp -> ->. destruct par as [|par]; [done|]. simpl.
  rewrite Nat.eqb_refl. unfold bind_name, pending_error, name_error. simpl.
  destruct (slice pattern (gB + 1) i) as [|c name] eqn:En; simpl; [done|].
  by repeat case_match.
Qed.

Lemma step_close i st :
  l_parens st = 1 -> l_escape st = false ->
  step_ i ")" st =
    match l_err st with
    | Some e => inr (group_error pattern (l_groupBegin st) (i + 1) (l_paramsIndex st) e)
    | None => inl (close_group pattern i st)
    end.
Proof. destruct st. simpl. intros -> ->. simpl. by case_match. Qed.

(** Outside the groups no error is pending. *)
Lemma step_no_pending i c st st' :
  (l_parens st = 0 -> l_err st = None) ->
  step_ i c st = inl st' ->
  l_parens st' = 0 -> l_err st' = None.
Proof.
  destruct st as [err prefix pI pc gB gE eq par rS esc]. unfold step. simpl.
  intros Hinv Hstep.
  repeat case_match; simplify_eq; simpl in *; try done; try lia;
    try (apply Hinv; by apply Nat.eqb_eq);
    repeat match goal with
           | E : (_ =? 0) = false |- _ => apply Nat.eqb_neq in E
           end;
    intros; lia.
Qed.

Lemma scan_no_pending i w st st' :
  (l_parens st = 0 -> l_err st = None) ->
  scan_ i w st = inl st' ->
  l_parens st' = 0 -> l_err st' = None.
Proof.
  revert i st. induction w as [|c w IH]; intros i st Hinv Hscan; simpl in Hscan.
  - by injection Hscan as <-.
  - destruct (step _ _ i c st) as [st1|] eqn:Estep; [|done].
    eapply IH; [|exact Hscan]. by eapply step_no_pending.
Qed.

Lemma scan_one i c st :
  scan_ i [c] st = step_ i c st.
Proof. simpl. by destruct (step _ _ i c st). Qed.

(** The scanner over a whole group, from the parenthesis that opens
    it at offset [length pre] to the one that closes it. *)
Lemma scan_group pre body post st :
  pattern = pre ++ "("%char :: body ++ ")"%char :: post ->
  l_parens st = 0 -> l_escape st = false -> l_err st = None ->
  balanced body ->
  let st1 := open_group pattern (length pre) st in
  let close := S (length pre) + length body in
  scan_ (length pre) ("("%char :: body ++ [")"%char]) st =
    match first_equals body with
    | None => inl (close_group pattern close st1)
    | Some (name, rx) =>
        let pending := pending_error nameToField name (length pre + 1) in
        let st2 := bind_name nameToField name (S (length pre) + length name)
                     pending st1 in
        match pending with
        | None => inl (close_group pattern close st2)
        | Some e => inr (group_error pattern (length pre) (close + 1)
                           (l_paramsIndex st2) e)
        end
    end.
Proof.
  intros Hpat Hp He Herr Hbal. cbn zeta.
  change (scan_ (length pre) ("("%char :: body ++ [")"%char]) st)
    with (match step_ (length pre) "(" st with
          | inl st' => scan_ (S (length pre)) (body ++ [")"%char]) st'
          | inr res => inr res
          end).
  rewrite step_open by done. rewrite scan_app.
  destruct (first_equals body) as [[name rx]|] eqn:Esep.
  - apply first_equals_Some in Esep as [-> Hname].
    unfold balanced in Hbal. rewrite depth_after_app in Hbal.
    destruct (depth_after 1 name) as [d1|] eqn:Ed1; [|done]. simpl in Hbal.
    change (depth_after d1 ("="%char :: rx)) with (depth_after d1 rx) in Hbal.
    pose proof (depth_after_pos 1 name d1 ltac:(done) Ed1) as Hd1.
    rewrite scan_app.
    rewrite (scan_inside name _ _ d1); [|done|done|by left|done].
    change (scan_ (S (length pre) + length name) ("="%char :: rx) ?s)
      with (match step_ (S (length pre) + length name) "=" s with
            | inl st' => scan_ (S (S (length pre) + length name)) rx st'
            | inr res => inr res
            end).
    rewrite step_equals; [|done|done|done]. cbn zeta.
    assert (slice pattern
              (l_groupBegin (with_parens d1 (open_group pattern (length pre) st)) + 1)
              (S (length pre) + length name) = name) as ->.
    { apply (slice_middle _ (pre ++ ["("%char]) name
               ("="%char :: rx ++ ")"%char :: post)).
      - rewrite Hpat. by rewrite <- !app_assoc.
      - rewrite length_app. simpl. done.
      - rewrite length_app. simpl. lia. }
    change (l_groupBegin (with_parens d1 (open_group pattern (length pre) st)))
      with (length pre).
    change (l_err (with_parens d1 (open_group pattern (length pre) st)))
      with (l_err st).
    rewrite Herr.
    rewrite (scan_inside rx _ _ 1); [|done|done|right; simpl; lia|done].
    rewrite length_app. simpl length.
    replace (S (length pre) + (length name + S (length rx)))
      with (S (S (length pre) + length name) + length rx) by lia.
    rewrite scan_one, step_close by done. simpl l_err.
    destruct (pending_error nameToField name (length pre + 1)) as [e|]; [done|].
    done.
  - rewrite (scan_inside body _ _ 1); [|done|done|by left|done].
    rewrite scan_one, step_close by done. simpl l_err. by rewrite Herr.
Qed.

End Scanner.

(** ** Groups and their names *)

(** Equations between pieces of a pattern and between their lengths. *)
Ltac pieces :=
  repeat (rewrite <- ?app_assoc, ?length_app; simpl); first [done | lia].

Section Groups.
Context {Regexp : Type} {RX : RegexpEngine Regexp}.
Context (nameToField : gmap gostring Z).

(** C7, amended. The name separator of a group is its first [=],
    wherever it stands in the group: what precedes it is the variable
    name (validated, and bound to the next ordinal), what follows it,
    up to the parenthesis that closes the group, is copied as it is;
    a group without any [=] is copied whole and binds nothing. *)
Theorem separator_is_first_equals pre body post :
  group_scanned (Regexp := Regexp) first_equals nameToField pre body post.
Proof.
  unfold group_scanned. intros st Hscan Hp He Hbal.
  set (pattern := pre ++ "("%char :: body ++ ")"%char :: post) in *.
  assert (l_err st = None) as Herr.
  { by apply (scan_no_pending (Regexp := Regexp) pattern nameToField 0 pre
               initial st). }
  pose proof (scan_group (Regexp := Regexp) pattern nameToField pre body post st eq_refl
                Hp He Herr Hbal) as Hgroup.
  cbn zeta in Hgroup.
  assert (forall st', scan (Regexp := Regexp) pattern nameToField (length pre)
                        ("("%char :: body ++ [")"%char]) st = inl st' ->
            scan (Regexp := Regexp) pattern nameToField 0 (pre ++ "("%char :: body ++ [")"%char])
              initial = inl st') as Hwhole.
  { intros st' Hst'. by rewrite scan_app, Hscan. }
  destruct (first_equals body) as [[name rx]|] eqn:Esep.
  - pose proof (first_equals_Some _ _ _ Esep) as [Hbody _].
    unfold pending_error in Hgroup.
    destruct (name_error nameToField name) as [c|] eqn:Ename.
    + unfold compilePattern.
      replace (scan (Regexp := Regexp) pattern nameToField 0 pattern initial)
        with (scan (Regexp := Regexp) pattern nameToField 0
                ((pre ++ "("%char :: body ++ [")"%char]) ++ post) initial)
        by (f_equal; subst pattern; pieces).
      rewrite scan_app, scan_app, Hscan. simpl "+". rewrite Hgroup.
      unfold group_error. simpl. rewrite !Nat.add_1_r.
      by rewrite (slice_middle pattern pre ("("%char :: body ++ [")"%char]) post)
        by (subst pattern; pieces).
    + eexists. split; [apply Hwhole, Hgroup|]. simpl. split_and!; [|done|lia].
      rewrite <- !app_assoc. do 3 f_equal.
      apply (slice_middle _ (pre ++ "("%char :: name ++ ["="%char])
               (rx ++ [")"%char]) post); subst pattern body; pieces.
  - eexists. split; [apply Hwhole, Hgroup|]. simpl. split_and!; [|done|done].
    rewrite <- !app_assoc. do 3 f_equal.
    apply (slice_middle _ (pre ++ ["("%char]) (body ++ [")"%char]) post);
      subst pattern; pieces.
Qed.

(** Inside a group that does not close, the depth is the only thing
    to follow; the group keeps its start. *)
Lemma scan_unclosed pattern w i st d :
  l_parens st <> 0 -> l_escape st = false ->
  depth_after (l_parens st) w = Some d ->
  exists st', scan (Regexp := Regexp) pattern nameToField i w st = inl st' /\
    l_parens st' = d /\ l_groupBegin st' = l_groupBegin st.
Proof.
  revert i st. induction w as [|c w IH]; intros i st Hp He Hd.
  - exists st. simpl in Hd. by injection Hd as <-.
  - destruct st as [err prefix pI pc gB gE eq par rS esc]. simpl in *. subst esc.
    destruct par as [|par]; [done|]. simpl.
    destruct (Ascii.eqb c "(") eqn:Eo.
    { edestruct IH as (st' & -> & ? & ?); [| |by rewrite Nat.add_1_r in *|];
        simpl; [lia|done|]. by exists st'. }
    destruct (Ascii.eqb c ")") eqn:Ec.
    { destruct par as [|par]; [done|]. rewrite Nat.sub_0_r. simpl.
      edestruct IH as (st' & -> & ? & ?); [| |exact Hd|]; simpl; [lia|done|].
      by exists st'. }
    destruct (Ascii.eqb c "=" && (eq =? gB)).
    + edestruct IH as (st' & -> & ? & ?); [| |exact Hd|]; simpl; [lia|done|].
      by exists st'.
    + edestruct IH as (st' & -> & ? & ?); [| |exact Hd|]; simpl; [lia|done|].
      by exists st'.
Qed.

(** The compiler on a pattern whose group [body], at top level after
    [pre], has a bad name. *)
Lemma compilePattern_name_error pre body post st name rx c :
  let pattern := pre ++ "("%char :: body ++ ")"%char :: post in
  scan (Regexp := Regexp) pattern nameToField 0 pre initial = inl st ->
  l_parens st = 0 -> l_escape st = false -> balanced body ->
  first_equals body = Some (name, rx) ->
  name_error nameToField name = Some c ->
  compilePattern pattern nameToField =
    mkCompiled None []
      (<[default 0%Z (nameToField !! name) := l_paramIndex st]> (l_paramsIndex st))
      (Some (PatternError
         (mkPatternCompileError c ("("%char :: body ++ [")"%char]) pattern
            name (S (length pre))))).
Proof.
  intros pattern Hscan Hp He Hbal Esep Ename.
  assert (l_err st = None) as Herr.
  { by apply (scan_no_pending (Regexp := Regexp) pattern nameToField 0 pre
               initial st). }
  pose proof (scan_group (Regexp := Regexp) pattern nameToField pre body post
                st eq_refl Hp He Herr Hbal) as Hgroup.
  cbn zeta in Hgroup. rewrite Esep in Hgroup.
  unfold pending_error in Hgroup. rewrite Ename in Hgroup.
  unfold compilePattern.
  replace (scan (Regexp := Regexp) pattern nameToField 0 pattern initial)
    with (scan (Regexp := Regexp) pattern nameToField 0
            ((pre ++ "("%char :: body ++ [")"%char]) ++ post) initial)
    by (f_equal; subst pattern; pieces).
  rewrite scan_app, scan_app, Hscan. simpl "+". rewrite Hgroup.
  unfold group_error. simpl. rewrite !Nat.add_1_r.
  by rewrite (slice_middle pattern pre ("("%char :: body ++ [")"%char]) post)
    by (subst pattern; pieces).
Qed.

(** C8. After a span [pre] that leaves the scanner outside every
    group: a closing parenthesis is at once an [UnmatchedRightParen]
    at its offset; a group that never closes is [Unterminated] at the
    offset where it opens, whatever name it has; a group with a bad
    name is reported when its closing parenthesis is read, with the
    text of the whole group. *)
Theorem errors_reported pattern pre rest st :
  pattern = pre ++ rest ->
  scan (Regexp := Regexp) pattern nameToField 0 pre initial = inl st ->
  l_parens st = 0 -> l_escape st = false ->
  (forall post, rest = ")"%char :: post ->
     compilePattern pattern nameToField =
       mkCompiled None [] (l_paramsIndex st)
         (Some (PatternError
            (mkPatternCompileError UnmatchedRightParen [] pattern []
               (length pre))))) /\
  (forall opened d, rest = "("%char :: opened ->
     depth_after 1 opened = Some d ->
     c_re (compilePattern pattern nameToField) = None /\
     c_err (compilePattern pattern nameToField) =
       Some (PatternError
          (mkPatternCompileError Unterminated [] pattern [] (length pre)))) /\
  (forall body post name rx c, rest = "("%char :: body ++ ")"%char :: post ->
     balanced body -> first_equals body = Some (name, rx) ->
     name_error nameToField name = Some c ->
     compilePattern pattern nameToField =
       mkCompiled None []
         (<[default 0%Z (nameToField !! name) := l_paramIndex st]>
            (l_paramsIndex st))
         (Some (PatternError
            (mkPatternCompileError c ("("%char :: body ++ [")"%char]) pattern
               name (S (length pre)))))).
Proof.
  intros Hpat Hscan Hp He. split_and!.
  - intros post ->. unfold compilePattern.
    rewrite Hpat at 2. rewrite scan_app, Hscan. simpl.
    destruct st as [err prefix pI pc gB gE eq par rS esc]. simpl in *.
    by subst par esc.
  - intros opened d -> Hd. unfold compilePattern.
    rewrite Hpat at 2 4. rewrite scan_app, Hscan. simpl "+".
    change (scan pattern nameToField (length pre) ("("%char :: opened) st)
      with (match step (Regexp := Regexp) pattern nameToField (length pre) "(" st with
            | inl st' => scan pattern nameToField (S (length pre)) opened st'
            | inr res => inr res
            end).
    rewrite step_open by done.
    destruct (scan_unclosed pattern opened (S (length pre))
                (open_group pattern (length pre) st) d) as (st' & -> & Hd' & Hb');
      [done|done|done|].
    unfold finish. rewrite Hd', Hb'. simpl.
    pose proof (depth_after_pos 1 opened d ltac:(done) Hd) as Hne.
    apply Nat.eqb_neq in Hne. by rewrite Hne.
  - intros body post name rx c -> Hbal Esep Ename. subst pattern.
    by apply (compilePattern_name_error pre body post st name rx c).
Qed.

(** The scanner over a sequence of well-formed pieces: it ends outside
    every group, with the ordinal and the mapping of the specification. *)
Lemma scan_pieces pattern ps pre post st st' :
  pattern = pre ++ render ps ++ post ->
  l_parens st = 0 -> l_escape st = false -> l_err st = None ->
  Forall piece_ok ps ->
  scan (Regexp := Regexp) pattern nameToField (length pre) (render ps) st = inl st' ->
  (l_paramIndex st', l_paramsIndex st') =
    slots nameToField ps (l_paramIndex st) (l_paramsIndex st) /\
  l_parens st' = 0 /\ l_escape st' = false /\ l_err st' = None.
Proof.
  revert pre st. induction ps as [|[w|body] ps IH]; intros pre st Hpat Hp He Herr Hok.
  - simpl. by intros [= <-].
  - apply Forall_cons in Hok as [Hw Hok]. simpl in Hw.
    change (render (Lit w :: ps)) with (w ++ render ps) in *.
    rewrite scan_app, (scan_literal pattern nameToField w _ st false) by
      (by rewrite ?He).
    rewrite <- length_app. intros Hscan.
    apply IH in Hscan; [done|by rewrite Hpat, <- !app_assoc|done..].
  - apply Forall_cons in Hok as [Hb Hok]. simpl in Hb.
    change (render (Grp body :: ps))
      with (("("%char :: body ++ [")"%char]) ++ render ps) in *.
    rewrite scan_app.
    rewrite (scan_group pattern nameToField pre body (render ps ++ post) st)
      by (done || (rewrite Hpat; pieces)).
    rewrite <- length_app. cbn zeta. simpl slots.
    destruct (first_equals body) as [[name rx]|].
    + destruct (pending_error nameToField name (length pre + 1)); [done|].
      intros Hscan.
      apply IH in Hscan; [|rewrite Hpat; pieces|done..].
      simpl in Hscan. by rewrite Nat.add_1_r in Hscan.
    + intros Hscan. apply IH in Hscan; [done|rewrite Hpat; pieces|done..].
Qed.

(** The counter and the mapping of the scanner after the pieces [ps];
    the counter moves as soon as the [=] of a named group is read,
    whether or not the name leaves an error pending. *)
Lemma scan_ordinals pattern ps post st :
  pattern = render ps ++ post ->
  Forall piece_ok ps ->
  scan (Regexp := Regexp) pattern nameToField 0 (render ps) initial = inl st ->
  (l_paramIndex st, l_paramsIndex st) = slots nameToField ps 0 ∅ /\
  (forall name rest d,
     post = "("%char :: name ++ "="%char :: rest ->
     first_equals name = None -> depth_after 1 name = Some d ->
     exists st',
       scan (Regexp := Regexp) pattern nameToField 0
         (render ps ++ "("%char :: name ++ ["="%char]) initial = inl st' /\
       l_err st' = pending_error nameToField name (length (render ps) + 1) /\
       l_paramIndex st' = S (l_paramIndex st) /\
       l_paramsIndex st' =
         <[default 0%Z (nameToField !! name) := l_paramIndex st]>
           (l_paramsIndex st)).
Proof.
  intros Hpat Hok Hscan.
  destruct (scan_pieces pattern ps [] post initial st) as (Hslots & Hp & He & Herr);
    [done..|].
  split; [done|].
  intros name rest d -> Hname Hd.
  rewrite scan_app, Hscan. simpl "+".
  change (scan pattern nameToField (length (render ps))
            ("("%char :: name ++ ["="%char]) st)
    with (match step (Regexp := Regexp) pattern nameToField (length (render ps)) "(" st with
          | inl st' => scan pattern nameToField (S (length (render ps)))
                         (name ++ ["="%char]) st'
          | inr res => inr res
          end).
  rewrite step_open by done. rewrite scan_app.
  rewrite (scan_inside pattern nameToField name _ _ d); [|done|done|by left|done].
  rewrite scan_one, step_equals;
    [|by apply (depth_after_pos 1 name d)|done|done].
  cbn zeta.
  assert (slice pattern
            (l_groupBegin (with_parens d (open_group pattern (length (render ps)) st)) + 1)
            (S (length (render ps)) + length name) = name) as ->.
  { apply (slice_middle _ (render ps ++ ["("%char]) name ("="%char :: rest));
      [rewrite Hpat| |]; pieces. }
  eexists. split; [done|]. simpl. rewrite Herr.
  split_and!; [by destruct (pending_error _ _ _)|lia|done].
Qed.

End Groups.

(** ** The kinds of the mapped fields *)

Section MappedFields.
Context {Regexp : Type} {RX : RegexpEngine Regexp}.
Context {float64 : Type} {FL : Float64 float64} {Handler : Type}.

(** Every name that [readParams] resolves is the index of a field of
    an allowed kind. *)
Lemma readFields_allowed rest done acc nameToField :
  readFields rest (Z.of_nat (length done)) acc = (nameToField, None) ->
  (forall name k, acc !! name = Some k ->
     (0 <= k)%Z /\ exists fld, (done ++ rest) !! Z.to_nat k = Some fld /\
                               allowedType (FieldKind fld) = true) ->
  forall name k, nameToField !! name = Some k ->
    (0 <= k)%Z /\ exists fld, (done ++ rest) !! Z.to_nat k = Some fld /\
                              allowedType (FieldKind fld) = true.
Proof.
  revert done acc. induction rest as [|f rest IH]; intros done acc; simpl.
  - by intros [= <-].
  - intros Hread Hacc.
    assert (forall key, forall name k, <[key := Z.of_nat (length done)]> acc !! name = Some k ->
              allowedType (FieldKind f) = true ->
              (0 <= k)%Z /\ exists fld, ((done ++ [f]) ++ rest) !! Z.to_nat k = Some fld /\
                                        allowedType (FieldKind fld) = true) as Hins.
    { intros key name k Hk Hf. rewrite <- app_assoc. simpl.
      destruct (decide (key = name)) as [->|Hne].
      - rewrite lookup_insert_eq in Hk. injection Hk as <-. split; [lia|].
        exists f. rewrite Nat2Z.id. split; [|done].
        by rewrite lookup_app_r, Nat.sub_diag by lia.
      - rewrite lookup_insert_ne in Hk by done. by apply Hacc in Hk. }
    assert (Z.of_nat (length done) + 1 = Z.of_nat (length (done ++ [f])))%Z as Hi.
    { rewrite length_app. simpl. lia. }
    rewrite Hi in Hread.
    replace (done ++ f :: rest) with ((done ++ [f]) ++ rest)
      by (by rewrite <- app_assoc).
    destruct (length (Tag f) =? 0); simpl in Hread.
    + destruct (allowedType (FieldKind f)) eqn:Ek; simpl in Hread.
      * destruct (allowedName (Name f)); simpl in Hread.
        -- case_bool_decide.
           ++ eapply IH; [exact Hread|]. intros name k Hk. by eapply Hins.
           ++ eapply IH; [exact Hread|]. intros name k Hk.
              rewrite <- app_assoc. by apply Hacc in Hk.
        -- eapply IH; [exact Hread|]. intros name k Hk.
           rewrite <- app_assoc. by apply Hacc in Hk.
      * eapply IH; [exact Hread|]. intros name k Hk.
        rewrite <- app_assoc. by apply Hacc in Hk.
    + destruct (allowedName (Tag f)); simpl in Hread; [|done].
      destruct (allowedType (FieldKind f)) eqn:Ek; simpl in Hread; [|done].
      eapply IH; [exact Hread|]. intros name k Hk. by eapply Hins.
Qed.

Lemma step_keys_defined pattern nameToField i c st st' :
  keys_defined nameToField st ->
  step (Regexp := Regexp) pattern nameToField i c st = inl st' ->
  keys_defined nameToField st'.
Proof.
  destruct st as [err prefix pI pc gB gE eq par rS esc].
  unfold step, keys_defined. simpl. intros Hinv Hstep.
  repeat case_match; simplify_eq; simpl in *; try done.
  intros Herr f v Hf.
  case_bool_decide as Hdef; [done|].
  destruct (nameToField !! slice pattern (gB + 1) i) as [k|] eqn:Ek; [|done].
  simpl in Hf. destruct (decide (k = f)) as [->|Hne]; [by eexists|].
  rewrite lookup_insert_ne in Hf by done. by eapply Hinv.
Qed.

Lemma scan_keys_defined pattern nameToField i w st st' :
  keys_defined nameToField st ->
  scan (Regexp := Regexp) pattern nameToField i w st = inl st' ->
  keys_defined nameToField st'.
Proof.
  revert i st. induction w as [|c w IH]; intros i st Hinv; simpl.
  - by intros [= <-].
  - destruct (step pattern nameToField i c st) as [st1|] eqn:Estep; [|done].
    apply IH. by eapply step_keys_defined.
Qed.

(** A [return] from inside the loop carries an error. *)
Lemma scan_returns_error pattern nameToField i w st res :
  scan (Regexp := Regexp) pattern nameToField i w st = inr res ->
  c_err res <> None.
Proof.
  revert i st. induction w as [|c w IH]; intros i st; simpl; [done|].
  destruct (step pattern nameToField i c st) as [st1|res1] eqn:Estep; [apply IH|].
  intros [= ->]. destruct st. unfold step in Estep. simpl in Estep.
  repeat case_match; by simplify_eq.
Qed.

(** The mapping of a registered route sends only to fields that exist
    and whose kind is one of those the type switch of the dispatcher
    handles. *)
Lemma mapped_fields_allowed pattern (handler : Handler) fields rh :
  newRoute pattern handler (PointerToStruct fields) = inr rh ->
  forall f v, rh_paramsIndex rh !! f = Some v ->
    (0 <= f)%Z /\ exists fld, fields !! Z.to_nat f = Some fld /\
                              allowedType (FieldKind fld) = true.
Proof.
  unfold newRoute, readParams.
  destruct (readFields fields 0 ∅) as [nameToField [e|]] eqn:Eread; [done|].
  unfold compilePattern.
  destruct (scan pattern nameToField 0 pattern initial) as [st|res] eqn:Escan.
  - unfold finish. destruct (l_parens st =? 0) eqn:Ep; simpl; [|done].
    destruct (regexp_Compile _); simpl; [|done].
    intros [= <-] f v Hf. simpl in Hf.
    assert (l_err st = None) as Herr.
    { apply (scan_no_pending (Regexp := Regexp) pattern nameToField 0 pattern
               initial st); [done|done|by apply Nat.eqb_eq]. }
    assert (keys_defined nameToField st) as Hkeys.
    { by apply (scan_keys_defined pattern nameToField 0 pattern initial st). }
    destruct (Hkeys Herr f v Hf) as [name Hname].
    by apply (readFields_allowed fields [] ∅ nameToField Eread) in Hname.
  - pose proof (scan_returns_error _ _ _ _ _ _ Escan) as Hres.
    by destruct (c_err res).
Qed.

(** Hence no entry of the mapping is refused for its kind or its
    field index when the values are coerced. *)
Lemma coercion_switch_total pattern (handler : Handler) fields rh f v vals ps :
  newRoute pattern handler (PointerToStruct fields) = inr rh ->
  rh_paramsIndex rh !! f = Some v ->
  setField fields vals f v ps <> CoercePanic FieldOutOfRange /\
  forall k, setField fields vals f v ps <> CoercePanic (CannotSetType k).
Proof.
  intros Hnew Hf.
  destruct (mapped_fields_allowed _ _ _ _ Hnew f v Hf) as (Hpos & fld & Hfld & Hk).
  unfold setField. destruct (Z.ltb_spec f 0) as [|_]; [lia|]. rewrite Hfld.
  destruct (FieldKind fld); try done;
    destruct (vals !! v) as [val|]; try done;
    repeat case_match; done.
Qed.

End MappedFields.

(** ** Closed runs of the compiler and of the table *)

Section ClosedRuns.
Import Examples.
Local Existing Instance RE.engine.

Local Abbreviation compile := (compilePattern (RX := RE.engine)).
Local Abbreviation scanned := (scan (Regexp := RE.re * nat)).

(** The defect behind C5: in a pattern that starts with a group, the
    literal span before the first group is empty, but the compiler
    accepts the pattern with the span that follows the group as
    prefix. *)
Theorem group_at_offset_0_takes_later_prefix :
  let pattern := str "(a)/x" in
  spec_prefix pattern = [] /\
  c_err (compile pattern ∅) = None /\
  c_prefix (compile pattern ∅) = str "/x".
Proof. by vm_compute. Qed.

(** C7 as stated fails on the pattern of the repository's own test of
    invalid names: the first [=] of the group comes after a nested
    parenthesis, so the specification's separator finds none and the
    group would be anonymous; the compiler takes what precedes that
    [=] as the name and rejects it. *)
Lemma separator_after_nested_paren :
  ~ group_scanned (RX := RE.engine) spec_separator {[ str "v1" := 1%Z ]}
      (str "/prefix/") (str "()=abc") [].
Proof.
  intros Hclaim.
  specialize (Hclaim initial ltac:(by vm_compute) eq_refl eq_refl eq_refl).
  vm_compute in Hclaim. by destruct Hclaim as (st' & Hscan & _).
Qed.

Lemma separator_is_first_equals_witness :
  let m : gmap gostring Z := {[ str "v1" := 1%Z ]} in
  let pattern := str "/prefix/(v1==)/" in
  scanned pattern m 0 (str "/prefix/") initial = inl initial /\
  balanced (str "v1==") /\
  first_equals (str "v1==") = Some (str "v1", str "=") /\
  exists st',
    scanned pattern m 0 (str "/prefix/(v1==)") initial = inl st' /\
    l_regexpString st' = str "/prefix/(=)" /\
    l_paramsIndex st' = {[ 1%Z := 0 ]} /\
    l_paramIndex st' = 1.
Proof.
  split_and!; [by vm_compute..|].
  pose proof (separator_is_first_equals (RX := RE.engine)
                {[ str "v1" := 1%Z ]} (str "/prefix/") (str "v1==") (str "/")
                initial ltac:(by vm_compute) eq_refl eq_refl eq_refl) as Hgroup.
  vm_compute in Hgroup. vm_compute. exact Hgroup.
Defined.

Lemma table_sorted_newest_first_witness :
  HandleAll precedence NewRouter = inr (table precedence) /\
  exists rhs,
    Forall2 (fun '(pattern, handler, params) rh =>
               newRoute pattern handler params = inr rh) precedence rhs /\
    ascending (table precedence) /\
    forall p, with_prefix p (table precedence) = reverse (with_prefix p rhs).
Proof.
  split; [by vm_compute|].
  apply (table_sorted_newest_first precedence (table precedence)).
  by vm_compute.
Defined.

(** The three error patterns of the repository's tests. *)
Lemma errors_reported_witness :
  let m : gmap gostring Z := {[ str "v1" := 1%Z ]} in
  c_err (compile (str "/prefix/)(v2=abc)") m) =
    Some (PatternError (mkPatternCompileError UnmatchedRightParen []
            (str "/prefix/)(v2=abc)") [] 8)) /\
  c_err (compile (str "/prefix/(=abc") m) =
    Some (PatternError (mkPatternCompileError Unterminated []
            (str "/prefix/(=abc") [] 8)) /\
  c_err (compile (str "/prefix/(=abc)") m) =
    Some (PatternError (mkPatternCompileError MissingVariableName
            (str "(=abc)") (str "/prefix/(=abc)") [] 9)).
Proof.
  intros m. split_and!.
  - destruct (errors_reported (RX := RE.engine) m (str "/prefix/)(v2=abc)")
                (str "/prefix/") (str ")(v2=abc)") initial eq_refl
                ltac:(by vm_compute) eq_refl eq_refl) as (Hunmatched & _ & _).
    by rewrite (Hunmatched (str "(v2=abc)") eq_refl).
  - destruct (errors_reported (RX := RE.engine) m (str "/prefix/(=abc")
                (str "/prefix/") (str "(=abc") initial eq_refl
                ltac:(by vm_compute) eq_refl eq_refl) as (_ & Hopen & _).
    by destruct (Hopen (str "=abc") 1 eq_refl eq_refl) as [_ ->].
  - destruct (errors_reported (RX := RE.engine) m (str "/prefix/(=abc)")
                (str "/prefix/") (str "(=abc)") initial eq_refl
                ltac:(by vm_compute) eq_refl eq_refl) as (_ & _ & Hname).
    by rewrite (Hname (str "=abc") [] [] (str "abc") MissingVariableName
                  eq_refl eq_refl eq_refl eq_refl).
Defined.


End ClosedRuns.

(** ** removeEscapes *)

Lemma slice_snoc (seen rest : gostring) c b :
  b <= length seen ->
  slice (seen ++ c :: rest) b (S (length seen)) =
    slice (seen ++ c :: rest) b (length seen) ++ [c].
Proof.
  intros Hb. unfold slice. rewrite drop_app_le by done.
  rewrite !take_app.
  rewrite !length_drop.
  replace (S (length seen) - b - (length seen - b)) with 1 by lia.
  replace (length seen - b - (length seen - b)) with 0 by lia.
  rewrite (take_ge (drop b seen) (S (length seen) - b))
    by (rewrite length_drop; lia).
  rewrite (take_ge (drop b seen) (length seen - b))
    by (rewrite length_drop; lia).
  simpl. by rewrite take_0, app_nil_r.
Qed.

(** The invariant of the loop of [removeEscapes], after the bytes
    [seen]: without pending backslash the span from [begin] on is
    still to be copied; after a backslash the next byte starts the
    span unseen. *)
Lemma removeEscapes_loop_spec rest seen begin unescaped :
  begin <= length seen ->
  removeEscapes_loop (seen ++ rest) rest (length seen) begin false unescaped =
    unescaped ++ slice (seen ++ rest) begin (length seen) ++ unescape rest /\
  (begin = length seen ->
   removeEscapes_loop (seen ++ rest) rest (length seen) begin true unescaped =
     unescaped ++ match rest with
                  | [] => []
                  | e :: rest' => e :: unescape rest'
                  end).
Proof.
  revert seen begin unescaped.
  induction rest as [|c rest IH]; intros seen begin unescaped Hb.
  - simpl. rewrite !app_nil_r. unfold slice_from, slice. split.
    + rewrite take_ge; [reflexivity|]. rewrite length_drop. lia.
    + intros ->. rewrite drop_all, app_nil_r. reflexivity.
  - assert (seen ++ c :: rest = (seen ++ [c]) ++ rest) as Hs
      by (by rewrite <- app_assoc).
    assert (S (length seen) = length (seen ++ [c])) as Hl
      by (rewrite length_app; simpl; lia).
    split.
    + simpl. destruct (Ascii.eqb c "\") eqn:Ec.
      * rewrite Hs, Hl.
        destruct (IH (seen ++ [c]) (length (seen ++ [c]))
                    (unescaped ++ slice ((seen ++ [c]) ++ rest) begin (length seen))
                    (Nat.le_refl _)) as [_ Hskip].
        rewrite (Hskip eq_refl). by rewrite <- app_assoc.
      * rewrite Hs, Hl.
        destruct (IH (seen ++ [c]) begin unescaped ltac:(lia)) as [Hcopy _].
        rewrite Hcopy, <- Hs, <- Hl, slice_snoc by lia.
        by rewrite <- !app_assoc.
    + intros ->. simpl. rewrite Hs, Hl.
      destruct (IH (seen ++ [c]) (length seen) unescaped ltac:(lia)) as [Hcopy _].
      rewrite Hcopy, <- Hs, <- Hl, slice_snoc by lia.
      unfold slice at 1. by rewrite Nat.sub_diag.
Qed.

Lemma removeEscapes_eq s : removeEscapes s = unescape s.
Proof.
  unfold removeEscapes.
  destruct (removeEscapes_loop_spec s [] 0 [] (Nat.le_refl _)) as [H _].
  simpl in H. rewrite H. unfold slice. by simpl.
Qed.

(** X1. [removeEscapes] drops each escaping backslash and keeps the
    byte it escapes, whatever it is; a backslash at the very end of
    the string is dropped. *)
Theorem removeEscapes_unescape s : removeEscapes s = unescape s.
Proof. apply removeEscapes_eq. Qed.

Lemma unescape_app_aux w1 w2 :
  (literal false w1 = Some false ->
   unescape (w1 ++ w2) = unescape w1 ++ unescape w2) /\
  (literal true w1 = Some false ->
   match w1 ++ w2 with [] => [] | e :: s => e :: unescape s end =
   match w1 with [] => [] | e :: s => e :: unescape s end ++ unescape w2).
Proof.
  induction w1 as [|c w1 [IHplain IHesc]]; [by split|]. split.
  - simpl. destruct (Ascii.eqb c "\"); [exact IHesc|].
    destruct (Ascii.eqb c "(" || Ascii.eqb c ")"); [done|].
    intros Hl. by rewrite IHplain.
  - simpl. intros Hl. by rewrite IHplain.
Qed.

(** Unescaping goes through the pieces of a pattern, if the first
    does not end in the middle of an escape. *)
Lemma unescape_app w1 w2 :
  literal false w1 = Some false ->
  unescape (w1 ++ w2) = unescape w1 ++ unescape w2.
Proof. apply unescape_app_aux. Qed.

Lemma QuoteMeta_app s1 s2 : QuoteMeta (s1 ++ s2) = QuoteMeta s1 ++ QuoteMeta s2.
Proof. unfold QuoteMeta. apply flat_map_app. Qed.

Lemma unescape_escapeLiteral s : unescape (escapeLiteral s) = s.
Proof.
  induction s as [|c s IH]; [done|].
  change (escapeLiteral (c :: s))
    with ((if Ascii.eqb c "(" || Ascii.eqb c ")" || Ascii.eqb c "\"
           then ["\"%char; c] else [c]) ++ escapeLiteral s).
  destruct (Ascii.eqb c "(" || Ascii.eqb c ")" || Ascii.eqb c "\") eqn:Esp.
  - simpl. by rewrite IH.
  - simpl. apply orb_false_elim in Esp as [_ ->]. by rewrite IH.
Qed.

(** X2. Round trip: the text spelled with a backslash before each
    parenthesis and backslash is read back as it was. *)
Theorem removeEscapes_escapeLiteral s : removeEscapes (escapeLiteral s) = s.
Proof. rewrite removeEscapes_eq. apply unescape_escapeLiteral. Qed.

Lemma literal_escapeLiteral s : literal false (escapeLiteral s) = Some false.
Proof.
  induction s as [|c s IH]; [done|].
  change (escapeLiteral (c :: s))
    with ((if Ascii.eqb c "(" || Ascii.eqb c ")" || Ascii.eqb c "\"
           then ["\"%char; c] else [c]) ++ escapeLiteral s).
  destruct (Ascii.eqb c "(" || Ascii.eqb c ")" || Ascii.eqb c "\") eqn:Esp.
  - exact IH.
  - simpl. apply orb_false_elim in Esp as [Hp ->]. by rewrite Hp.
Qed.

(** ** The compiler on whole patterns *)

Section WholePatterns.
Context {Regexp : Type} {RX : RegexpEngine Regexp}.
Context (nameToField : gmap gostring Z).

(** X3. A pattern without any group (every parenthesis escaped)
    compiles to the regexp that matches its unescaped text and
    nothing else, has that text as prefix and binds nothing; the only
    error left is the one of [regexp.Compile]. *)
Theorem compile_without_groups pattern e :
  literal false pattern = Some e ->
  let expr := str "^" ++ QuoteMeta (removeEscapes pattern) ++ str "$" in
  compilePattern pattern nameToField =
    mkCompiled (regexp_Compile expr) (removeEscapes pattern) ∅
      (match regexp_Compile expr with
       | Some _ => None
       | None => Some RegexpError
       end).
Proof.
  intros Hlit. unfold compilePattern.
  rewrite (scan_literal pattern nameToField pattern 0 initial e) by done.
  unfold finish, slice_from. simpl. done.
Qed.

(** X21. To route on a text as it is, one spells it with a backslash
    before each parenthesis and backslash: the pattern compiles to the
    regexp that matches that text and nothing else, with the text as
    prefix, whatever characters it holds. *)
Theorem compile_escaped_literal s :
  let expr := str "^" ++ QuoteMeta s ++ str "$" in
  compilePattern (escapeLiteral s) nameToField =
    mkCompiled (regexp_Compile expr) s ∅
      (match regexp_Compile expr with
       | Some _ => None
       | None => Some RegexpError
       end).
Proof.
  unfold compilePattern.
  rewrite (scan_literal (escapeLiteral s) nameToField (escapeLiteral s) 0
             initial false) by first [done|apply literal_escapeLiteral].
  unfold finish, slice_from. simpl.
  by rewrite drop_0, !removeEscapes_eq, !unescape_escapeLiteral.
Qed.

(** Once a group has opened past offset 0 the prefix is settled. *)
Lemma step_prefix_stable pattern i c st st' :
  l_groupBegin st <> 0 -> i <> 0 ->
  step (Regexp := Regexp) pattern nameToField i c st = inl st' ->
  l_prefix st' = l_prefix st /\ l_groupBegin st' <> 0.
Proof.
  destruct st as [err prefix pI pc gB gE eq par rS esc].
  unfold step. simpl. intros Hgb Hi Hstep.
  apply Nat.eqb_neq in Hgb.
  repeat case_match; simplify_eq; simpl; try rewrite Hgb; split; try done;
    by apply Nat.eqb_neq.
Qed.

Lemma scan_prefix_stable pattern i w st st' :
  l_groupBegin st <> 0 -> i <> 0 ->
  scan (Regexp := Regexp) pattern nameToField i w st = inl st' ->
  l_prefix st' = l_prefix st /\ l_groupBegin st' <> 0.
Proof.
  revert i st. induction w as [|c w IH]; intros i st Hgb Hi; simpl.
  - by intros [= <-].
  - destruct (step pattern nameToField i c st) as [st1|] eqn:Estep; [|done].
    destruct (step_prefix_stable _ _ _ _ _ Hgb Hi Estep) as [Hp Hgb1].
    intros Hscan. destruct (IH (S i) st1 Hgb1 ltac:(lia) Hscan) as [Hp' Hgb'].
    split; [congruence|done].
Qed.

(** X4. When a literal span comes first, the prefix of an accepted
    pattern is that span, unescaped: what stands before the first
    group. *)
Theorem prefix_before_first_group pattern pre rest :
  pattern = pre ++ "("%char :: rest ->
  pre <> [] -> literal false pre = Some false ->
  c_err (compilePattern pattern nameToField) = None ->
  c_prefix (compilePattern pattern nameToField) = removeEscapes pre.
Proof.
  intros Hpat Hne Hlit. unfold compilePattern.
  rewrite Hpat at 2 4. rewrite scan_app.
  rewrite (scan_literal pattern nameToField pre 0 initial false) by done.
  change (with_escape false initial) with initial. simpl "+".
  change (scan pattern nameToField (length pre) ("("%char :: rest) initial)
    with (match step (Regexp := Regexp) pattern nameToField (length pre) "(" initial with
          | inl st' => scan pattern nameToField (S (length pre)) rest st'
          | inr res => inr res
          end).
  rewrite step_open by done.
  destruct (scan pattern nameToField (S (length pre)) rest
              (open_group pattern (length pre) initial)) as [st|res] eqn:Escan.
  - assert (l_groupBegin (open_group pattern (length pre) initial) <> 0) as Hgb0
      by (simpl; by destruct pre).
    destruct (scan_prefix_stable _ _ _ _ _ Hgb0 (Nat.neq_succ_0 _) Escan)
      as [Hp Hgb].
    unfold finish. destruct (l_parens st =? 0); simpl; [|done].
    intros _. apply Nat.eqb_neq in Hgb. rewrite Hgb, Hp. simpl.
    by rewrite (slice_middle pattern [] pre ("("%char :: rest)).
  - intros Herr. by apply (scan_returns_error _ _ _ _ _ _ Escan) in Herr.
Qed.

Lemma slice_nil (p : gostring) a : slice p a a = [].
Proof. unfold slice. by rewrite Nat.sub_diag, take_0. Qed.

Lemma slice_split (p : gostring) a b c :
  a <= b <= c -> slice p a c = slice p a b ++ slice p b c.
Proof.
  intros Habc. unfold slice.
  replace (c - a) with ((b - a) + (c - b)) by lia.
  rewrite <- take_take_drop, drop_drop.
  by replace (a + (b - a)) with b by lia.
Qed.

Lemma slice_full (p : gostring) a : slice p a (length p) = slice_from p a.
Proof. unfold slice, slice_from. apply take_ge. rewrite length_drop. lia. Qed.

Lemma literal_app e e' w1 w2 :
  literal e w1 = Some e' -> literal e (w1 ++ w2) = literal e' w2.
Proof.
  revert e. induction w1 as [|c w1 IH]; intros e; simpl.
  - by intros [= ->].
  - destruct e; [apply IH|].
    destruct (Ascii.eqb c "\"); [apply IH|].
    destruct (Ascii.eqb c "(" || Ascii.eqb c ")"); [done|apply IH].
Qed.

(** The scanner over well-formed pieces with good names: it goes
    through, and the regexp it has built, completed by the literal
    span still pending since the last group, is the translation of
    the pieces. *)
Lemma scan_translate pattern ps pre post st :
  pattern = pre ++ render ps ++ post ->
  l_parens st = 0 -> l_escape st = false -> l_err st = None ->
  Forall piece_ok ps -> names_ok nameToField ps ->
  l_groupEnd st <= length pre ->
  literal false (slice pattern (l_groupEnd st) (length pre)) = Some false ->
  exists st',
    scan (Regexp := Regexp) pattern nameToField (length pre) (render ps) st
      = inl st' /\
    l_parens st' = 0 /\ l_escape st' = false /\ l_err st' = None /\
    l_groupEnd st' <= length pre + length (render ps) /\
    literal false (slice pattern (l_groupEnd st')
                     (length pre + length (render ps))) = Some false /\
    l_regexpString st' ++
      QuoteMeta (unescape (slice pattern (l_groupEnd st')
                             (length pre + length (render ps)))) =
    l_regexpString st ++
      QuoteMeta (unescape (slice pattern (l_groupEnd st) (length pre))) ++
      translate ps.
Proof.
  revert pre st.
  induction ps as [|[w|body] ps IH]; intros pre st Hpat Hp He Herr Hok Hnames Hge Hpend.
  - exists st. simpl. rewrite Nat.add_0_r, app_nil_r. by split_and!.
  - apply Forall_cons in Hok as [Hw Hok]. apply Forall_cons in Hnames as [_ Hnames].
    simpl in Hw.
    change (render (Lit w :: ps)) with (w ++ render ps) in *.
    change (translate (Lit w :: ps)) with (QuoteMeta (unescape w) ++ translate ps).
    assert (slice pattern (length pre) (length (pre ++ w)) = w) as Hslice.
    { apply (slice_middle _ pre w (render ps ++ post)); [rewrite Hpat| |]; pieces. }
    assert (slice pattern (l_groupEnd st) (length (pre ++ w)) =
            slice pattern (l_groupEnd st) (length pre) ++ w) as Hpend'.
    { rewrite (slice_split pattern _ (length pre)), Hslice; [done|].
      rewrite length_app. lia. }
    destruct (IH (pre ++ w) (with_escape false st)) as (st' & Hscan & Hrest);
      [rewrite Hpat; pieces|done|done|done|done|done|
       simpl; rewrite length_app; lia| |].
    { simpl l_groupEnd. rewrite Hpend'. by rewrite (literal_app _ _ _ _ Hpend). }
    exists st'. rewrite scan_app.
    rewrite (scan_literal pattern nameToField w _ st false) by (by rewrite ?He).
    rewrite <- length_app. split; [done|].
    simpl l_groupEnd in Hrest. simpl l_regexpString in Hrest.
    rewrite Hpend', (unescape_app _ _ Hpend), QuoteMeta_app in Hrest.
    rewrite !length_app in *. rewrite Nat.add_assoc.
    destruct Hrest as (? & ? & ? & ? & ? & ->). split_and!; try done.
    by rewrite <- !app_assoc.
  - apply Forall_cons in Hok as [Hb Hok]. apply Forall_cons in Hnames as [Hname Hnames].
    simpl in Hb.
    change (render (Grp body :: ps))
      with (("("%char :: body ++ [")"%char]) ++ render ps) in *.
    change (translate (Grp body :: ps))
      with (("("%char :: inner body ++ [")"%char]) ++ translate ps).
    pose proof (scan_group (Regexp := Regexp) pattern nameToField pre body
                  (render ps ++ post) st ltac:(rewrite Hpat; pieces) Hp He Herr Hb)
      as Hgroup.
    cbn zeta in Hgroup.
    set (group := "("%char :: body ++ [")"%char]) in *.
    assert (length (pre ++ group) = S (length pre) + length body + 1) as Hlen
      by (subst group; pieces).
    assert (exists st1,
              scan (Regexp := Regexp) pattern nameToField (length pre) group st
                = inl st1 /\
              l_parens st1 = 0 /\ l_escape st1 = false /\ l_err st1 = None /\
              l_groupEnd st1 = length (pre ++ group) /\
              l_regexpString st1 =
                l_regexpString st ++
                QuoteMeta (unescape (slice pattern (l_groupEnd st) (length pre))) ++
                "("%char :: inner body ++ [")"%char]) as (st1 & Hscan1 & Hp1 & He1 & Herr1 & Hge1 & Hre1).
    { unfold inner. destruct (first_equals body) as [[name rx]|] eqn:Esep.
      - apply first_equals_Some in Esep as [Hbody _].
        unfold pending_error in Hgroup. rewrite Hname in Hgroup.
        eexists. split; [exact Hgroup|]. simpl. rewrite removeEscapes_eq.
        split_and!; [done|done|done|lia|].
        rewrite <- !app_assoc. do 2 f_equal. simpl. f_equal.
        apply (slice_middle _ (pre ++ "("%char :: name ++ ["="%char])
                 (rx ++ [")"%char]) (render ps ++ post));
          [rewrite Hpat|..]; subst group body; pieces.
      - eexists. split; [exact Hgroup|]. simpl. rewrite removeEscapes_eq.
        split_and!; [done|done|done|lia|].
        rewrite <- !app_assoc. do 2 f_equal. simpl. f_equal.
        apply (slice_middle _ (pre ++ ["("%char]) (body ++ [")"%char])
                 (render ps ++ post));
          [rewrite Hpat|..]; subst group; pieces. }
    destruct (IH (pre ++ group) st1) as (st' & Hscan & Hrest);
      [rewrite Hpat; pieces|done|done|done|done|done|lia|
       by rewrite Hge1, slice_nil|].
    exists st'. rewrite scan_app, Hscan1, <- length_app. split; [done|].
    rewrite Hge1, slice_nil, Hre1 in Hrest. simpl in Hrest.
    rewrite !length_app in *. rewrite Nat.add_assoc.
    destruct Hrest as (? & ? & ? & ? & ? & ->). split_and!; try done.
    rewrite <- !app_assoc. simpl. by rewrite <- !app_assoc.
Qed.

(** The compiler on well-formed pieces with good names, in terms of
    the scanner's own running mapping. *)
Lemma compilePattern_pieces ps :
  Forall piece_ok ps -> names_ok nameToField ps ->
  let expr := str "^" ++ translate ps ++ str "$" in
  c_re (compilePattern (render ps) nameToField) = regexp_Compile expr /\
  c_paramsIndex (compilePattern (render ps) nameToField) =
    (slots nameToField ps 0 ∅).2 /\
  c_err (compilePattern (render ps) nameToField) =
    match regexp_Compile expr with
    | Some _ => None
    | None => Some RegexpError
    end.
Proof.
  intros Hok Hnames.
  destruct (scan_translate (render ps) ps [] [] initial) as
    (st & Hscan & Hp & He & Herr & Hge & Hlit & Hre);
    [by rewrite app_nil_r|done|done|done|done|done|done|done|].
  destruct (scan_pieces (Regexp := Regexp) nameToField (render ps) ps [] []
              initial st) as (Hslots & _);
    [by rewrite app_nil_r|done|done|done|done|done|].
  unfold compilePattern. simpl length in *. rewrite Hscan.
  unfold finish. rewrite Hp. simpl negb. cbv iota.
  simpl in Hre. rewrite slice_full in Hre.
  rewrite removeEscapes_eq, Hre. cbn zeta. simpl.
  split_and!; [done| |done].
  change (slots nameToField ps 0 ∅)
    with (slots nameToField ps (l_paramIndex initial) (l_paramsIndex initial)).
  by rewrite <- Hslots.
Qed.

(** The ordinal of a named group is its rank among the named groups. *)
Lemma bindings_ordinal ps o i slot k :
  bindings nameToField ps o !! i = Some (slot, k) -> k = o + i.
Proof.
  revert o i. induction ps as [|[w|body] ps IH]; intros o i; simpl;
    [done|apply IH|].
  destruct (first_equals body) as [[name rx]|]; [|apply IH].
  destruct i as [|i]; simpl.
  - intros [= <- <-]. lia.
  - intros Hi%IH. lia.
Qed.

(** The running mapping is the one the assignments of the named
    groups build, one after the other. *)
Lemma slots_bindings ps o g :
  slots nameToField ps o g =
    (o + length (bindings nameToField ps o),
     foldl (fun g b => <[b.1 := b.2]> g) g (bindings nameToField ps o)).
Proof.
  revert o g. induction ps as [|[w|body] ps IH]; intros o g; simpl.
  - by rewrite Nat.add_0_r.
  - apply IH.
  - destruct (first_equals body) as [[name rx]|]; [|apply IH].
    rewrite IH. simpl. f_equal. lia.
Qed.

(** What a sequence of assignments leaves at a key: the value of the
    last assignment to that key, or what was there before. *)
Lemma foldl_insert_lookup (bs : list (Z * nat)) (g : gmap Z nat) slot k :
  foldl (fun g b => <[b.1 := b.2]> g) g bs !! slot = Some k <->
  (exists i, bs !! i = Some (slot, k) /\
     forall j k', i < j -> bs !! j <> Some (slot, k')) \/
  (g !! slot = Some k /\ forall j k', bs !! j <> Some (slot, k')).
Proof.
  revert g. induction bs as [|[f v] bs IH]; intros g; simpl.
  - split.
    + intros Hg. right. split; [done|]. intros j k'. by rewrite lookup_nil.
    + intros [(i & Hi & _)|[Hg _]]; [by rewrite lookup_nil in Hi|done].
  - rewrite IH. split.
    + intros [(i & Hi & Hlast)|[Hg Hnone]].
      * left. exists (S i). split; [done|].
        intros [|j] k' Hj; [lia|]. simpl. apply Hlast. lia.
      * destruct (decide (f = slot)) as [->|Hne].
        -- rewrite lookup_insert_eq in Hg. injection Hg as ->.
           left. exists 0. split; [done|].
           intros [|j] k' Hj; [lia|]. simpl. apply Hnone.
        -- rewrite lookup_insert_ne in Hg by done. right. split; [done|].
           intros [|j] k'; simpl; [congruence|apply Hnone].
    + intros [(i & Hi & Hlast)|[Hg Hnone]].
      * destruct i as [|i]; simpl in Hi.
        -- injection Hi as -> ->. right. rewrite lookup_insert_eq.
           split; [done|]. intros j k'. apply (Hlast (S j) k'). lia.
        -- left. exists i. split; [done|].
           intros j k' Hj. apply (Hlast (S j) k'). lia.
      * right. split.
        -- rewrite lookup_insert_ne; [done|]. intros ->. by apply (Hnone 0 v).
        -- intros j k'. apply (Hnone (S j) k').
Qed.

Lemma slots_last_group_bound ps :
  last_group_bound (bindings nameToField ps 0) (slots nameToField ps 0 ∅).2.
Proof.
  intros slot k. rewrite slots_bindings. simpl. rewrite foldl_insert_lookup.
  split.
  - intros [(i & Hi & Hlast)|[He _]]; [|by rewrite lookup_empty in He].
    pose proof (bindings_ordinal _ _ _ _ _ Hi) as Hk. simpl in Hk. by subst i.
  - intros [Hk Hlast]. left. by exists k.
Qed.

(** X5. A pattern made of literal spans with complete escapes and of
    balanced groups with good names compiles to the anchored regexp
    of its pieces in order (literal spans unescaped and quoted, each
    group reduced to what follows its name); the mapping it returns
    has the entries of the named groups, the slot of each sent to its
    ordinal, the last named group winning when several have the same
    slot; the only error left is the one of [regexp.Compile]. *)
Theorem compile_pieces ps :
  Forall piece_ok ps -> names_ok nameToField ps ->
  let expr := str "^" ++ translate ps ++ str "$" in
  let res := compilePattern (render ps) nameToField in
  c_re res = regexp_Compile expr /\
  last_group_bound (bindings nameToField ps 0) (c_paramsIndex res) /\
  c_err res =
    match regexp_Compile expr with
    | Some _ => None
    | None => Some RegexpError
    end.
Proof.
  intros Hok Hnames.
  destruct (compilePattern_pieces ps Hok Hnames) as (Hre & Hmap & Herr).
  cbn zeta. split_and!; [done| |done].
  rewrite Hmap. apply slots_last_group_bound.
Qed.

(** C9, amended. The ordinal counter runs over the named groups only:
    the ordinal of a named group is its rank among the named groups,
    and the mapping that the compiler returns has no entry but those
    of the named groups.  The entry of a named group, its slot sent
    to its ordinal, is written when the group is read and replaces
    the entry of an earlier named group of the same slot: the mapping
    returned holds, at each slot, the ordinal of the last named group
    of that slot, and every named group has its entry when no two of
    them share a slot.  The entry is written and the counter moves as
    soon as the [=] is read, also when the name leaves an error
    pending: the mapping returned with the error of such a group has
    its entry, at the ordinal that follows those of the groups before
    it. *)
Theorem ordinals_count_named_groups ps :
  Forall piece_ok ps -> names_ok nameToField ps ->
  let bs := bindings nameToField ps 0 in
  let groupToSlot := c_paramsIndex (compilePattern (render ps) nameToField) in
  (forall i slot k, bs !! i = Some (slot, k) -> k = i) /\
  last_group_bound bs groupToSlot /\
  (NoDup bs.*1 -> every_group_bound bs groupToSlot) /\
  (forall name rest d,
     first_equals name = None -> depth_after 1 name = Some d ->
     exists st',
       scan (Regexp := Regexp)
         (render ps ++ "("%char :: name ++ "="%char :: rest) nameToField 0
         (render ps ++ "("%char :: name ++ ["="%char]) initial = inl st' /\
       l_err st' = pending_error nameToField name (length (render ps) + 1) /\
       l_paramIndex st' = S (length bs) /\
       l_paramsIndex st' =
         <[default 0%Z (nameToField !! name) := length bs]> groupToSlot) /\
  (forall body post name rx c,
     balanced body -> first_equals body = Some (name, rx) ->
     name_error nameToField name = Some c ->
     let res :=
       compilePattern (render ps ++ "("%char :: body ++ ")"%char :: post)
         nameToField in
     (exists e, c_err res = Some (PatternError e) /\ cause e = c) /\
     c_paramsIndex res =
       <[default 0%Z (nameToField !! name) := length bs]> groupToSlot).
Proof.
  intros Hok Hnames bs groupToSlot.
  destruct (compilePattern_pieces ps Hok Hnames) as (_ & Hmap & _).
  fold groupToSlot in Hmap.
  pose proof (slots_last_group_bound ps) as Hlast. rewrite <- Hmap in Hlast.
  fold bs in Hlast.
  assert (forall i slot k, bs !! i = Some (slot, k) -> k = i) as Hord.
  { intros i slot k Hi. by apply bindings_ordinal in Hi. }
  assert (forall post, exists st,
            scan (Regexp := Regexp) (render ps ++ post) nameToField 0
              (render ps) initial = inl st /\
            l_parens st = 0 /\ l_escape st = false /\
            l_paramIndex st = length bs /\ l_paramsIndex st = groupToSlot)
    as Hscan.
  { intros post.
    destruct (scan_translate (render ps ++ post) ps [] post initial) as
      (st & Hst & Hp & He & _);
      [done|done|done|done|done|done|done|done|].
    destruct (scan_pieces (Regexp := Regexp) nameToField (render ps ++ post)
                ps [] post initial st) as (Hslots & _);
      [done|done|done|done|done|done|].
    simpl length in Hst. exists st. split_and!; [done|done|done|..].
    all: change (slots nameToField ps (l_paramIndex initial)
                   (l_paramsIndex initial))
           with (slots nameToField ps 0 ∅) in Hslots.
    - rewrite slots_bindings in Hslots. by injection Hslots as -> _.
    - rewrite Hmap. by destruct (slots nameToField ps 0 ∅); injection Hslots. }
  split_and!; [exact Hord|exact Hlast| | |].
  - intros Hnd slot k (i & Hi)%list_elem_of_lookup.
    pose proof (Hord _ _ _ Hi) as ->. apply Hlast. split; [done|].
    intros j k' Hj Hj'.
    assert (i = j) as -> by
      (eapply (NoDup_lookup _ _ _ _ Hnd); by rewrite list_lookup_fmap, ?Hi, ?Hj').
    lia.
  - intros name rest d Hname Hd.
    destruct (Hscan ("("%char :: name ++ "="%char :: rest))
      as (st & Hst & _ & _ & Hcount & Hindex).
    destruct (scan_ordinals (Regexp := Regexp) nameToField _ ps _ st eq_refl
                Hok Hst) as [_ Hnext].
    destruct (Hnext name rest d eq_refl Hname Hd)
      as (st' & Hst' & Herr & Hcount' & Hindex').
    exists st'. split_and!; [done|done|by rewrite Hcount', Hcount|].
    by rewrite Hindex', Hcount, Hindex.
  - intros body post name rx c Hbal Hsep Hname.
    destruct (Hscan ("("%char :: body ++ ")"%char :: post))
      as (st & Hst & Hp & He & Hcount & Hindex).
    cbn zeta.
    rewrite (compilePattern_name_error (Regexp := Regexp) nameToField
               (render ps) body post st name rx c Hst Hp He Hbal Hsep Hname).
    simpl. rewrite Hcount, Hindex. split; [by eexists|done].
Qed.

End WholePatterns.

(** ** Closed runs of the slot mapping *)

Section MappingRuns.
Local Existing Instance RE.engine.

Local Abbreviation compile := (compilePattern (RX := RE.engine)).

(** C9 as stated fails on a pattern that names a variable twice: the
    pattern is accepted, its two named groups have the ordinals 0 and
    1 and the same slot 0, and the mapping returned has the single
    entry of the second: the first named group has no entry. *)
Lemma repeated_name_overwrites :
  let m : gmap gostring Z := {[ str "v" := 0%Z ]} in
  let ps := [Lit (str "/"); Grp (str "v=a"); Lit (str "/"); Grp (str "v=b")] in
  ~ (render ps = str "/(v=a)/(v=b)" /\
     c_err (compile (render ps) m) = None ->
     every_group_bound (bindings m ps 0) (c_paramsIndex (compile (render ps) m))).
Proof.
  intros m ps Hclaim.
  specialize (Hclaim ltac:(by vm_compute) 0%Z 0 ltac:(by left)).
  by vm_compute in Hclaim.
Qed.

(** The pattern of the repository's test of a missing name, after a
    named and an anonymous group. *)
Lemma ordinals_count_named_groups_witness :
  let m : gmap gostring Z := {[ str "v1" := 1%Z ]} in
  let ps := [Lit (str "/prefix/"); Grp (str "(x)"); Grp (str "v1=.*");
             Lit (str "/")] in
  Forall piece_ok ps /\ names_ok m ps /\
  bindings m ps 0 = [(1%Z, 0)] /\
  c_paramsIndex (compile (render ps) m) !! 1%Z = Some 0 /\
  c_paramsIndex (compile (render ps ++ str "(=abc)") m) =
    <[0%Z := 1]> (c_paramsIndex (compile (render ps) m)) /\
  exists e,
    c_err (compile (render ps ++ str "(=abc)") m) = Some (PatternError e) /\
    cause e = MissingVariableName.
Proof.
  intros m ps.
  assert (Forall piece_ok ps) as Hok by (repeat constructor).
  assert (names_ok m ps) as Hnames by (repeat constructor).
  destruct (ordinals_count_named_groups (RX := RE.engine) m ps Hok Hnames)
    as (_ & _ & Hbound & _ & Hbad).
  split_and!; [exact Hok|exact Hnames|done| | |].
  - apply Hbound; [|by left]. repeat constructor. by inversion 1.
  - exact (proj2 (Hbad (str "=abc") [] [] (str "abc") MissingVariableName
                    eq_refl eq_refl eq_refl)).
  - exact (proj1 (Hbad (str "=abc") [] [] (str "abc") MissingVariableName
                    eq_refl eq_refl eq_refl)).
Defined.

End MappingRuns.

(** ** readParams *)

Lemma readFields_fails_iff fields i acc :
  (readFields fields i acc).2 = None <-> forallb (fun f => negb (bad_tag f)) fields = true.
Proof.
  revert i acc. induction fields as [|f fields IH]; intros i acc; simpl; [done|].
  unfold bad_tag, is_tagged.
  destruct (length (Tag f) =? 0); simpl.
  - destruct (allowedType (FieldKind f) && allowedName (Name f));
      [case_bool_decide|]; apply IH.
  - destruct (allowedName (Tag f)); simpl; [|done].
    destruct (allowedType (FieldKind f)); simpl; [apply IH|done].
Qed.

(** X6. [readParams] refuses a struct exactly when one of its tagged
    fields has a tag that is no identifier or a kind that is not
    allowed; untagged fields never make it fail. *)
Theorem readParams_fails_iff fields :
  (readParams (PointerToStruct fields)).2 = None <->
  Forall (fun f => Tag f = [] \/
                   (allowedName (Tag f) = true /\
                    allowedType (FieldKind f) = true)) fields.
Proof.
  unfold readParams.
  destruct (readFields fields 0 ∅) as [m err] eqn:Eread. simpl.
  pose proof (readFields_fails_iff fields 0%Z ∅) as Hiff.
  rewrite Eread in Hiff. simpl in Hiff. rewrite Hiff.
  rewrite forallb_forall, Forall_forall. unfold bad_tag, is_tagged.
  split; intros Hall f Hf.
  - specialize (Hall f ltac:(by apply list_elem_of_In)).
    destruct (Nat.eqb_spec (length (Tag f)) 0) as [Hlen|_].
    + left. by apply nil_length_inv.
    + right. by destruct (allowedName (Tag f)), (allowedType (FieldKind f)).
  - apply list_elem_of_In, Hall in Hf as [Ht|[Hn Hk]].
    + by rewrite Ht.
    + rewrite Hn, Hk. by rewrite andb_false_r.
Qed.

Lemma readFields_resolve fields i acc m :
  readFields fields i acc = (m, None) ->
  forall n, m !! n =
    match last_tagged fields i n with
    | Some j => Some j
    | None => match acc !! n with
              | Some k => Some k
              | None => first_untagged fields i n
              end
    end.
Proof.
  revert i acc. induction fields as [|f fields IH]; intros i acc; simpl.
  - intros [= ->] n. by destruct (m !! n).
  - unfold eligible, is_tagged. destruct (length (Tag f) =? 0) eqn:Etag; simpl.
    + destruct (allowedType (FieldKind f) && allowedName (Name f)) eqn:Eel; simpl.
      * case_bool_decide as Hfree; intros Hread n; rewrite (IH _ _ Hread n);
          destruct (last_tagged fields (i + 1) n); try done;
          case_bool_decide as Hn; subst; simpl.
        -- by rewrite lookup_insert_eq, Hfree.
        -- by rewrite lookup_insert_ne.
        -- by destruct (acc !! Name f).
        -- done.
      * intros Hread n. rewrite (IH _ _ Hread n).
        by destruct (last_tagged fields (i + 1) n).
    + destruct (allowedName (Tag f)); simpl; [|done].
      destruct (allowedType (FieldKind f)); simpl; [|done].
      intros Hread n. rewrite (IH _ _ Hread n).
      destruct (last_tagged fields (i + 1) n); [done|].
      case_bool_decide as Hn; subst.
      * by rewrite lookup_insert_eq.
      * by rewrite lookup_insert_ne.
Qed.

(** X7. When [readParams] accepts a struct, a name resolves to the
    last field tagged with it, and only without such a field to the
    first untagged field of that name with an allowed kind: a tag wins
    over a field name wherever the two fields stand. *)
Theorem readParams_resolve fields m t :
  readParams (PointerToStruct fields) = (m, t, None) ->
  forall n, m !! n = resolve fields n.
Proof.
  unfold readParams, resolve.
  destruct (readFields fields 0 ∅) as [m' err] eqn:Eread.
  intros [= -> <- ->] n.
  rewrite (readFields_resolve _ _ _ _ Eread n).
  by rewrite lookup_empty.
Qed.

Lemma readFields_sound rest seen acc m :
  readFields rest (Z.of_nat (length seen)) acc = (m, None) ->
  (forall n k, acc !! n = Some k -> names_field (seen ++ rest) n k) ->
  forall n k, m !! n = Some k -> names_field (seen ++ rest) n k.
Proof.
  revert seen acc. induction rest as [|f rest IH]; intros seen acc; simpl.
  - by intros [= <-].
  - intros Hread Hacc.
    assert (Z.of_nat (length seen) + 1 = Z.of_nat (length (seen ++ [f])))%Z as Hi
      by (rewrite length_app; simpl; lia).
    rewrite Hi in Hread.
    replace (seen ++ f :: rest) with ((seen ++ [f]) ++ rest) in *
      by (by rewrite <- app_assoc).
    assert (((seen ++ [f]) ++ rest) !! Z.to_nat (Z.of_nat (length seen)) = Some f)
      as Hf.
    { rewrite Nat2Z.id, <- app_assoc. simpl.
      by rewrite lookup_app_r, Nat.sub_diag by lia. }
    destruct (length (Tag f) =? 0) eqn:Etag; simpl in Hread.
    + apply Nat.eqb_eq, nil_length_inv in Etag.
      destruct (allowedType (FieldKind f)) eqn:Ek; simpl in Hread;
        [|by eapply IH].
      destruct (allowedName (Name f)) eqn:En; simpl in Hread; [|by eapply IH].
      case_bool_decide; [|by eapply IH].
      eapply IH; [exact Hread|]. intros n k Hk.
      destruct (decide (Name f = n)) as [<-|Hne].
      * rewrite lookup_insert_eq in Hk. injection Hk as <-.
        split_and!; [done|lia|]. exists f. split_and!; [done|done|by right].
      * rewrite lookup_insert_ne in Hk by done. by apply Hacc.
    + destruct (allowedName (Tag f)) eqn:En; simpl in Hread; [|done].
      destruct (allowedType (FieldKind f)) eqn:Ek; simpl in Hread; [|done].
      eapply IH; [exact Hread|]. intros n k Hk.
      destruct (decide (Tag f = n)) as [<-|Hne].
      * rewrite lookup_insert_eq in Hk. injection Hk as <-.
        split_and!; [done|lia|]. exists f. split_and!; [done|done|by left].
      * rewrite lookup_insert_ne in Hk by done. by apply Hacc.
Qed.

(** X8. When [readParams] accepts a struct it returns its type, and
    every name it resolves is an identifier that stands for an
    existing field of an allowed kind, by tag or by field name. *)
Theorem readParams_sound fields m t :
  readParams (PointerToStruct fields) = (m, t, None) ->
  t = Some fields /\
  forall n k, m !! n = Some k -> names_field fields n k.
Proof.
  unfold readParams.
  destruct (readFields fields 0 ∅) as [m' err] eqn:Eread.
  intros [= -> <- ->]. split; [done|].
  by apply (readFields_sound fields [] ∅ m Eread).
Qed.

(** ** The dispatcher *)

Lemma search_loop_bounds fuel (f : nat -> bool) lo hi :
  lo <= hi -> lo <= Sort.search_loop fuel f lo hi <= hi.
Proof.
  revert lo hi. induction fuel as [|fuel IH]; intros lo hi Hle; [simpl; lia|].
  rewrite search_loop_S. destruct (Nat.ltb_spec lo hi) as [Hlt|Hge]; [|lia].
  pose proof (Nat.div_mod_eq (lo + hi) 2) as Hdm.
  pose proof (Nat.mod_upper_bound (lo + hi) 2) as Hmb.
  set (h := (lo + hi) / 2) in *.
  assert (lo <= h < hi) as Hh by lia. clearbody h. clear Hdm Hmb.
  destruct (f h); simpl.
  - specialize (IH lo h). lia.
  - specialize (IH (h + 1) hi). lia.
Qed.

Section Dispatcher.
Context {Regexp : Type} {RX : RegexpEngine Regexp}.
Context {float64 : Type} {FL : Float64 float64} {MR : MapRange}.
Context {Handler : Type}.
Implicit Types (rh : @regexpHandler Regexp Handler).
Implicit Types (routes : list (@regexpHandler Regexp Handler)).

Lemma boundary_le routes path : boundary routes path <= length routes.
Proof.
  unfold boundary, Sort.Search.
  pose proof (search_loop_bounds (length routes)
                (fun i => str_gtb (prefix_at routes i) path) 0 (length routes)).
  lia.
Qed.

(** X9. A path that no prefix of the table leads is answered with
    [NotFound]. *)
Theorem not_found_without_candidate routes path :
  (forall rh, rh ∈ routes -> HasPrefix path (rh_prefix rh) = false) ->
  ServeHTTP routes path = NotFound.
Proof.
  intros Hno. unfold ServeHTTP. pose proof (boundary_le routes path) as Hb.
  destruct (boundary routes path) as [|h]; [done|]. simpl.
  destruct (lookup_lt_is_Some_2 routes h) as [rh Hrh]; [lia|].
  rewrite Hrh, (Hno rh); [done|]. by eapply list_elem_of_lookup_2.
Qed.

Lemma tryRoute_served rh path hd ps :
  tryRoute rh path = Done (Served hd ps) ->
  rh_handler rh = hd /\
  exists re, rh_re rh = Some re /\ FindStringSubmatchIndex re path <> [] /\
    match rh_paramsType rh with
    | None => ps = None
    | Some t =>
        exists vals params,
          extractVals path (FindStringSubmatchIndex re path) = inr vals /\
          setFields t vals (rangeOrder (rh_paramsIndex rh)) (newParams t)
            = Accept params /\
          ps = Some params
    end.
Proof.
  unfold tryRoute. destruct (rh_re rh) as [re|]; [|done].
  destruct (FindStringSubmatchIndex re path) as [|a is_] eqn:Eis; [done|].
  unfold serveMatch. destruct (rh_paramsType rh) as [t|].
  - destruct (extractVals path (a :: is_)) as [p|vals] eqn:Evals; [done|].
    destruct (setFields _ _ _ _) as [params| |p] eqn:Eset; try done.
    intros [= <- <-]. split; [done|]. exists re. rewrite Eis.
    split_and!; [done|done|]. by exists vals, params.
  - intros [= <- <-]. split; [done|]. exists re. by rewrite Eis.
Qed.

Lemma keepLooking_served routes path h hd ps :
  keepLooking routes path h = Served hd ps ->
  exists i rh,
    i < h /\ routes !! i = Some rh /\
    HasPrefix path (rh_prefix rh) = true /\
    tryRoute rh path = Done (Served hd ps) /\
    forall j, i < j < h ->
      exists rh', routes !! j = Some rh' /\
        HasPrefix path (rh_prefix rh') = true /\
        tryRoute rh' path = KeepLooking.
Proof.
  induction h as [|h IH]; [done|]. simpl.
  destruct (routes !! h) as [rh|] eqn:Eh; [|done].
  destruct (HasPrefix path (rh_prefix rh)) eqn:Ep; [|done].
  destruct (tryRoute rh path) as [o|] eqn:Etry.
  - intros ->. exists h, rh. split_and!; [lia|done|done|done|]. intros j Hj. lia.
  - intros (i & rh' & Hi & Hrh' & Hp' & Htry' & Hrun)%IH.
    exists i, rh'. split_and!; [lia|done|done|done|].
    intros j Hj. destruct (decide (j = h)) as [->|Hne].
    + by exists rh.
    + apply Hrun. lia.
Qed.

(** X10. The handler that is called belongs to a route below the
    point where the search starts, whose prefix leads the path and
    whose regexp matches it; it receives params exactly when the route
    was registered with some; and every route between that one and the
    starting point has a prefix that leads the path and was tried and
    passed over. *)
Theorem served_route routes path hd ps :
  ServeHTTP routes path = Served hd ps ->
  exists i rh re,
    i < boundary routes path /\ routes !! i = Some rh /\
    rh_handler rh = hd /\
    HasPrefix path (rh_prefix rh) = true /\
    rh_re rh = Some re /\ FindStringSubmatchIndex re path <> [] /\
    (ps = None <-> rh_paramsType rh = None) /\
    forall j, i < j < boundary routes path ->
      exists rh', routes !! j = Some rh' /\
        HasPrefix path (rh_prefix rh') = true /\
        tryRoute rh' path = KeepLooking.
Proof.
  unfold ServeHTTP.
  intros (i & rh & Hi & Hrh & Hp & Htry & Hrun)%keepLooking_served.
  apply tryRoute_served in Htry as (Hhd & re & Hre & Hmatch & Hps).
  exists i, rh, re. split_and!; try done.
  destruct (rh_paramsType rh) as [t|].
  - destruct Hps as (vals & params & _ & _ & ->). done.
  - by subst ps.
Qed.

Lemma keepLooking_skip routes path k h :
  k <= h ->
  (forall j, k <= j < h ->
     exists rh, routes !! j = Some rh /\
       HasPrefix path (rh_prefix rh) = true /\
       tryRoute rh path = KeepLooking) ->
  keepLooking routes path h = keepLooking routes path k.
Proof.
  induction h as [|h IH]; intros Hk Hrun.
  - by replace k with 0 by lia.
  - destruct (decide (k = S h)) as [->|Hne]; [done|].
    simpl. destruct (Hrun h) as (rh & -> & -> & ->); [lia|].
    apply IH; [lia|]. intros j Hj. apply Hrun. lia.
Qed.

(** X11. Going down from the starting point, the first route that
    does not pass the request over decides the answer: if every route
    above route [k] has a prefix that leads the path and passes the
    request over, the answer of the dispatcher is the answer of route
    [k]. *)
Theorem first_answer_wins routes path k rh o :
  k < boundary routes path -> routes !! k = Some rh ->
  HasPrefix path (rh_prefix rh) = true ->
  tryRoute rh path = Done o ->
  (forall j, k < j < boundary routes path ->
     exists rh', routes !! j = Some rh' /\
       HasPrefix path (rh_prefix rh') = true /\
       tryRoute rh' path = KeepLooking) ->
  ServeHTTP routes path = o.
Proof.
  intros Hk Hrh Hp Htry Hrun. unfold ServeHTTP.
  rewrite (keepLooking_skip routes path (S k)); [|lia|].
  - simpl. by rewrite Hrh, Hp, Htry.
  - intros j Hj. apply Hrun. lia.
Qed.

(** X12. When the routes from the starting point down to route [k]
    all pass the request over, and [k] is the bottom of the table or
    the route below it has a prefix that does not lead the path, the
    answer is [NotFound], whatever stands further down. *)
Theorem not_found_after_rejections routes path k :
  k <= boundary routes path ->
  (forall j, k <= j < boundary routes path ->
     exists rh, routes !! j = Some rh /\
       HasPrefix path (rh_prefix rh) = true /\
       tryRoute rh path = KeepLooking) ->
  (k = 0 \/ exists rh, routes !! (k - 1) = Some rh /\
                       HasPrefix path (rh_prefix rh) = false) ->
  ServeHTTP routes path = NotFound.
Proof.
  intros Hk Hrun Hstop. unfold ServeHTTP.
  rewrite (keepLooking_skip routes path k) by done.
  destruct k as [|k]; [done|]. simpl.
  destruct Hstop as [|(rh & Hrh & Hp)]; [done|].
  replace (S k - 1) with k in Hrh by lia. by rewrite Hrh, Hp.
Qed.

(** X13. If no mapping entry of a route can panic on the path (or the
    mapping has at most one entry), the answer of the dispatcher does
    not depend on the order in which the [range] loops visit the
    mappings. *)
Theorem dispatch_order_independent (MR1 MR2 : MapRange) routes path :
  forallb (fun rh => route_safe rh path) routes = true ->
  ServeHTTP (MR := MR1) routes path = ServeHTTP (MR := MR2) routes path.
Proof.
  intros Hsafe. unfold ServeHTTP.
  assert (forallb (fun rh => route_safe rh path)
            (take (boundary routes path) routes) = true) as Htake.
  { rewrite <- (take_drop (boundary routes path) routes), forallb_app in Hsafe.
    by apply andb_prop in Hsafe as [? _]. }
  destruct (keepLooking_order MR1 routes path _ Htake) as [-> _].
  by destruct (keepLooking_order MR2 routes path _ Htake) as [-> _].
Qed.

Lemma setField_accept t vals f v ps ps' :
  setField t vals f v ps = Accept ps' ->
  (0 <= f)%Z /\
  exists fld s x,
    t !! Z.to_nat f = Some fld /\ Exported fld = true /\
    vals !! v = Some s /\ holds (FieldKind fld) s x /\
    ps' = <[Z.to_nat f := Some x]> ps.
Proof.
  unfold setField. destruct (Z.ltb_spec f 0) as [|Hf]; [done|].
  destruct (t !! Z.to_nat f) as [fld|]; [|done].
  intros Hset. split; [done|]. exists fld.
  destruct (FieldKind fld) eqn:Ek; try done;
    destruct (vals !! v) as [s|]; try done; exists s.
  all: try (destruct (Strconv.ParseInt s) as [n|] eqn:En; [|done]).
  all: try (destruct (Strconv.ParseUint s) as [n|] eqn:En; [|done]).
  all: try (destruct (ParseFloat s) as [r|] eqn:En; [|done]).
  all: destruct (Exported fld); [|done]; injection Hset as <-.
  all: eexists; split_and!; try done; simpl; eauto.
Qed.

Lemma setFields_accept t vals entries ps0 ps :
  setFields t vals entries ps0 = Accept ps -> NoDup entries.*1 ->
  length ps = length ps0 /\
  (forall f v, (f, v) ∈ entries ->
     (0 <= f)%Z /\
     exists fld s x,
       t !! Z.to_nat f = Some fld /\ Exported fld = true /\
       vals !! v = Some s /\ holds (FieldKind fld) s x /\
       (Z.to_nat f < length ps0 -> ps !! Z.to_nat f = Some (Some x))) /\
  (forall i, (forall f v, (f, v) ∈ entries -> f <> Z.of_nat i) ->
     ps !! i = ps0 !! i).
Proof.
  revert ps0. induction entries as [|[f v] entries IH]; intros ps0; simpl.
  - intros [= <-] _. split_and!; [done| |done]. intros f0 v0 Hin. by inversion Hin.
  - destruct (setField t vals f v ps0) as [ps1| |] eqn:Eset; try done.
    intros Hrest [Hnotin Hnd]%NoDup_cons.
    apply setField_accept in Eset
      as (Hf & fld & s & x & Hfld & Hexp & Hs & Hholds & ->).
    destruct (IH _ Hrest Hnd) as (Hlen & Hset & Hkeep). split_and!.
    + by rewrite Hlen, length_insert.
    + intros f' v' [[= -> ->]|Hin]%elem_of_cons.
      * split; [done|]. exists fld, s, x. split_and!; try done. intros Hlt.
        rewrite Hkeep.
        { by apply list_lookup_insert_eq. }
        intros f'' v'' Hin Heq. rewrite Z2Nat.id in Heq by lia. subst f''.
        apply Hnotin. apply list_elem_of_fmap. by exists (f, v'').
      * destruct (Hset f' v' Hin) as (Hf' & fld' & s' & x' & ? & ? & ? & ? & Hps).
        split; [done|]. exists fld', s', x'. split_and!; try done.
        intros Hlt. apply Hps. by rewrite length_insert.
    + intros i Hi. rewrite Hkeep.
      * rewrite list_lookup_insert_ne; [done|]. intros Heq.
        apply (Hi f v); [by left|lia].
      * intros f' v' Hin. apply (Hi f' v'). by right.
Qed.

(** X14. The params a handler receives: a struct of the registered
    type in which every field [f] of the route's mapping holds the
    extracted value [vals[v]], [v] being the ordinal that the mapping
    gives to [f], converted to the kind of the field as [holds] says
    (a string field holds the text as it is), and every other field
    is left at its zero value. *)
Theorem served_params rh path hd ps t :
  tryRoute rh path = Done (Served hd (Some ps)) ->
  rh_paramsType rh = Some t ->
  exists re vals,
    rh_re rh = Some re /\
    extractVals path (FindStringSubmatchIndex re path) = inr vals /\
    length ps = length t /\
    (forall f v, rh_paramsIndex rh !! f = Some v ->
       exists fld s x,
         t !! Z.to_nat f = Some fld /\ vals !! v = Some s /\
         holds (FieldKind fld) s x /\
         ps !! Z.to_nat f = Some (Some x)) /\
    (forall i, i < length t -> rh_paramsIndex rh !! Z.of_nat i = None ->
       ps !! i = Some None).
Proof.
  intros (_ & re & Hre & _ & Hps)%tryRoute_served Ht. rewrite Ht in Hps.
  destruct Hps as (vals & params & Hvals & Hset & [= ->]).
  exists re, vals. unfold newParams in Hset. split_and!; [done|done|..].
  all: pose proof (rangeOrder_perm (rh_paramsIndex rh)) as Hperm.
  all: apply setFields_accept in Hset as (Hlen & Hin & Hkeep);
    [|rewrite Hperm; apply NoDup_fst_map_to_list].
  - by rewrite Hlen, length_replicate.
  - intros f v Hfv.
    destruct (Hin f v) as (Hf & fld & s & x & Hfld & _ & Hs & Hholds & Hx).
    { rewrite Hperm. by apply elem_of_map_to_list. }
    exists fld, s, x. split_and!; try done. apply Hx.
    rewrite length_replicate. by eapply lookup_lt_Some.
  - intros i Hi Hnone. rewrite Hkeep.
    + by apply lookup_replicate_2.
    + intros f v Hfv ->. rewrite Hperm in Hfv.
      apply elem_of_map_to_list in Hfv. by rewrite Hnone in Hfv.
Qed.

End Dispatcher.

(** ** The values of the groups *)

Lemma outermost_wellformed path pairs e :
  (0 <= e)%Z -> Forall (pair_ok path) pairs ->
  exists vals,
    outermost path (flat pairs) e = inr vals /\
    length vals <= length pairs /\
    Forall (fun v => exists p, p ∈ pairs /\ (0 <= p.1)%Z /\ v = capture path p)
      vals.
Proof.
  revert e. induction pairs as [|[a b] pairs IH]; intros e He Hok.
  - exists []. by split_and!.
  - apply Forall_cons in Hok as [Hab Hok].
    change (flat ((a, b) :: pairs)) with (a :: b :: flat pairs).
    cbn [outermost]. destruct (Z.leb_spec e a) as [Hea|Hea].
    + destruct Hab as [[Ha _]|[Hab Hb]]; simpl in *; [lia|].
      unfold slice_checked.
      assert (((0 <=? a) && (a <=? b) && (b <=? Z.of_nat (length path)))%Z = true)
        as -> by (rewrite !andb_true_iff, !Z.leb_le; lia).
      destruct (IH b ltac:(lia) Hok) as (vals & -> & Hlen & Hvals).
      exists (slice path (Z.to_nat a) (Z.to_nat b) :: vals).
      split_and!; [done|simpl; lia|]. constructor.
      * exists (a, b). split_and!; [by left|simpl; lia|done].
      * eapply Forall_impl; [exact Hvals|]. intros v (p & Hp & ?).
        exists p. split; [by right|done].
    + destruct (IH e He Hok) as (vals & -> & Hlen & Hvals).
      exists vals. split_and!; [done|simpl; lia|].
      eapply Forall_impl; [exact Hvals|]. intros v (p & Hp & ?).
      exists p. split; [by right|done].
Qed.

(** X15. On the offsets of a match as a regexp engine reports them
    (two for the match, then two for each group: -1 and -1, or the
    bounds of a substring of the path) the extraction of the values
    does not panic; it yields at most one value for each group, each
    the text of a group that took part in the match. *)
Theorem extractVals_wellformed path m0 m1 pairs :
  Forall (pair_ok path) pairs ->
  exists vals,
    extractVals path (m0 :: m1 :: flat pairs) = inr vals /\
    length vals <= length pairs /\
    Forall (fun v => exists p, p ∈ pairs /\ (0 <= p.1)%Z /\ v = capture path p)
      vals.
Proof.
  intros Hok. unfold extractVals. cbn [drop].
  by apply outermost_wellformed.
Qed.

Lemma outermost_sequential path pairs e :
  (0 <= e)%Z -> sequential path e pairs ->
  outermost path (flat pairs) e = inr (map (capture path) pairs).
Proof.
  revert e. induction pairs as [|[a b] pairs IH]; intros e He Hseq; [done|].
  destruct Hseq as [[Hab Hb] Hseq]. simpl in Hab, Hb, Hseq.
  change (flat ((a, b) :: pairs)) with (a :: b :: flat pairs).
  cbn [outermost]. destruct (Z.leb_spec e a) as [_|]; [|lia].
  unfold slice_checked.
  assert (((0 <=? a) && (a <=? b) && (b <=? Z.of_nat (length path)))%Z = true)
    as -> by (rewrite !andb_true_iff, !Z.leb_le; lia).
  by rewrite (IH b ltac:(lia) Hseq).
Qed.

(** X16. When the groups of the match follow one another in the path
    (none nested in another, none left out), the values are the texts
    of the groups, one for each group and in their order. *)
Theorem extractVals_sequential path m0 m1 pairs :
  sequential path 0 pairs ->
  extractVals path (m0 :: m1 :: flat pairs) = inr (map (capture path) pairs).
Proof.
  intros Hseq. unfold extractVals. cbn [drop].
  by apply outermost_sequential.
Qed.

Lemma outermost_panic path is_ e p :
  outermost path is_ e = inl p -> p = IndexOutOfRange \/ p = SliceOutOfRange.
Proof.
  remember (length is_) as n eqn:Hn. revert is_ e Hn.
  induction n as [n IH] using lt_wf_ind. intros [|a [|b rest]] e Hn; [done|..].
  - simpl. destruct (e <=? a)%Z; [|done]. intros [= <-]. by left.
  - cbn [outermost]. destruct (e <=? a)%Z.
    + destruct (slice_checked path a b); [|intros [= <-]; by right].
      destruct (outermost path rest b) as [q|vals] eqn:Erest; [|done].
      intros [= <-]. apply (IH (length rest)) in Erest; [done|simpl in Hn; lia|done].
    + intros Hrest. apply (IH (length rest)) in Hrest; [done|simpl in Hn; lia|done].
Qed.

(** ** Registered routes *)

Section Registered.
Context {Regexp : Type} {RX : RegexpEngine Regexp}.
Context {float64 : Type} {FL : Float64 float64} {MR : MapRange}.
Context {Handler : Type}.
Implicit Types (rh : @regexpHandler Regexp Handler).
Implicit Types (routes : list (@regexpHandler Regexp Handler)).

Lemma insertRoute_perm rh routes : insertRoute rh routes ≡ₚ rh :: routes.
Proof.
  unfold insertRoute. rewrite <- Permutation_middle. by rewrite take_drop.
Qed.

(** X17. Registration neither drops nor repeats a route: after a
    sequence of registrations on any table, the table holds the routes
    it held before and one route for each registration, the one that
    [Handle] builds from the pattern, the handler and the params. *)
Theorem HandleAll_routes (regs : list (gostring * Handler * paramsArg))
    routes0 table :
  HandleAll regs routes0 = inr table ->
  exists rhs,
    Forall2 (fun '(pattern, handler, params) rh =>
               newRoute pattern handler params = inr rh) regs rhs /\
    table ≡ₚ routes0 ++ rhs.
Proof.
  revert routes0.
  induction regs as [|[[pattern handler] params] regs IH]; intros routes0; simpl.
  - intros [= <-]. exists []. by rewrite app_nil_r.
  - unfold Handle.
    destruct (newRoute pattern handler params) as [e|rh] eqn:Enew; [done|].
    intros (rhs & Hrhs & Hperm)%IH. exists (rh :: rhs). split; [by constructor|].
    rewrite Hperm, insertRoute_perm. by rewrite <- Permutation_middle.
Qed.

Lemma compilePattern_regexp pattern nameToField :
  c_err (compilePattern (Regexp := Regexp) pattern nameToField) = None ->
  exists re, c_re (compilePattern pattern nameToField) = Some re.
Proof.
  unfold compilePattern.
  destruct (scan pattern nameToField 0 pattern initial) as [st|res] eqn:Escan.
  - unfold finish. destruct (l_parens st =? 0); simpl; [|done].
    destruct (regexp_Compile _) as [re|]; simpl; [by exists re|done].
  - intros Herr. by apply scan_returns_error in Escan.
Qed.

Lemma setFields_panic t vals entries ps p :
  setFields t vals entries ps = CoercePanic p ->
  exists f v ps', (f, v) ∈ entries /\ setField t vals f v ps' = CoercePanic p.
Proof.
  revert ps. induction entries as [|[f v] entries IH]; intros ps; simpl; [done|].
  destruct (setField t vals f v ps) as [ps1| |q] eqn:Eset; try done.
  - intros (f' & v' & ps' & Hin & Hset)%IH. exists f', v', ps'.
    split; [by right|done].
  - intros [= ->]. exists f, v, ps. split; [by left|done].
Qed.

(** X18. A registered route cannot make the dispatcher panic for a
    missing regexp, a field index out of range or a field of a kind
    the type switch does not handle: the only panics left are an index
    or a slice out of range and, with a params struct that has an
    unexported mapped field, the refusal of [reflect] to set it. *)
Theorem registered_route_panics pattern (handler : Handler) params rh path p :
  newRoute pattern handler params = inr rh ->
  tryRoute rh path = Done (Panicked p) ->
  p = IndexOutOfRange \/ p = SliceOutOfRange \/ p = UnexportedField.
Proof.
  intros Hnew Htry.
  assert (exists re, rh_re rh = Some re) as [re Hre].
  { revert Hnew. unfold newRoute.
    destruct (readParams params) as [[m t] [e|]]; [done|].
    destruct (c_err (compilePattern pattern m)) eqn:Eerr; [done|].
    intros [= <-]. simpl. by apply compilePattern_regexp. }
  unfold tryRoute in Htry. rewrite Hre in Htry.
  destruct (FindStringSubmatchIndex re path) as [|a is_]; [done|].
  unfold serveMatch in Htry.
  destruct (rh_paramsType rh) as [t|] eqn:Et; [|done].
  destruct (extractVals path (a :: is_)) as [q|vals] eqn:Evals.
  { injection Htry as <-. apply outermost_panic in Evals. tauto. }
  destruct (setFields _ _ _ _) as [ps| |q] eqn:Eset; try done.
  injection Htry as <-.
  apply setFields_panic in Eset as (f & v & ps' & Hin & Hset).
  rewrite (rangeOrder_perm (rh_paramsIndex rh)) in Hin.
  apply elem_of_map_to_list in Hin.
  destruct params as [| |fields|k|k]; try (by vm_compute in Hnew).
  1,2: revert Hnew Et; unfold newRoute; simpl;
    destruct (c_err _); [done|]; intros [= <-]; done.
  assert (t = fields) as ->.
  { revert Hnew Et. unfold newRoute, readParams.
    destruct (readFields fields 0 ∅) as [m [e|]]; [done|].
    destruct (c_err _); [done|]. intros [= <-]. simpl. by intros [= ->]. }
  destruct (mapped_fields_allowed _ _ _ _ Hnew f v Hin) as (Hpos & fld & Hfld & Hk).
  revert Hset. unfold setField. destruct (Z.ltb_spec f 0) as [|_]; [lia|].
  rewrite Hfld.
  destruct (FieldKind fld); try done;
    destruct (vals !! v) as [val|]; try (intros [= <-]; tauto);
    repeat case_match; try done; intros [= <-]; tauto.
Qed.

(** X19. A route registered without params (a nil interface or a
    nil pointer) maps no field, and the dispatcher never panics on it:
    it passes the request over or calls the handler with nil params. *)
Theorem nil_params_route pattern (handler : Handler) params rh path :
  params = NilInterface \/ params = NilPointer ->
  newRoute pattern handler params = inr rh ->
  rh_paramsType rh = None /\ rh_paramsIndex rh = ∅ /\
  (tryRoute rh path = KeepLooking \/
   tryRoute rh path = Done (Served handler None)).
Proof.
  intros Hnil Hnew.
  assert (readParams params = (∅, None, None)) as Hread
    by (by destruct Hnil as [-> | ->]).
  unfold newRoute in Hnew. rewrite Hread in Hnew.
  destruct (c_err (compilePattern pattern ∅)) eqn:Eerr; [done|].
  injection Hnew as <-. simpl.
  destruct (compilePattern_regexp pattern ∅ Eerr) as [re Hre].
  split_and!; [done| |].
  - revert Eerr. unfold compilePattern.
    destruct (scan pattern ∅ 0 pattern initial) as [st|res] eqn:Escan.
    + unfold finish. destruct (l_parens st =? 0) eqn:Ep; simpl; [|done].
      intros _. apply map_empty. intros f.
      destruct (l_paramsIndex st !! f) as [v|] eqn:Ef; [|done].
      assert (l_err st = None) as Herr.
      { apply (scan_no_pending (Regexp := Regexp) pattern ∅ 0 pattern
                 initial st); [done|done|by apply Nat.eqb_eq]. }
      assert (keys_defined ∅ st) as Hkeys.
      { by apply (scan_keys_defined (Regexp := Regexp) pattern ∅ 0 pattern
                    initial st). }
      by destruct (Hkeys Herr f v Ef) as [name Hname].
    + intros Herr. by apply scan_returns_error in Escan.
  - unfold tryRoute, serveMatch. simpl. rewrite Hre.
    destruct (FindStringSubmatchIndex re path); [by left|by right].
Qed.

End Registered.

(** ** Closed runs of the further properties *)

Section FurtherRuns.
Import Examples.
Local Existing Instance RE.engine.
Local Existing Instance noFloat.

Local Abbreviation compile := (compilePattern (RX := RE.engine)).
Local Abbreviation serve := (ServeHTTP (MR := canonicalRange)).
Local Abbreviation try := (tryRoute (MR := canonicalRange)).

Lemma compile_without_groups_witness :
  let pattern := str "/a\(b\)" in
  literal false pattern = Some false /\
  compile pattern ∅ =
    mkCompiled (regexp_Compile (str "^" ++ QuoteMeta (str "/a(b)") ++ str "$"))
      (str "/a(b)") ∅ None.
Proof.
  intros pattern.
  assert (literal false pattern = Some false) as Hlit by (by vm_compute).
  split; [exact Hlit|].
  pose proof (compile_without_groups (RX := RE.engine) ∅ pattern false Hlit)
    as Hcompile.
  rewrite Hcompile. by vm_compute.
Defined.

(** The route of the package documentation. *)
Lemma prefix_before_first_group_witness :
  let m : gmap gostring Z := {[ str "var" := 0%Z ]} in
  let pattern := str "/re/(var=.*)" in
  c_err (compile pattern m) = None /\
  c_prefix (compile pattern m) = str "/re/".
Proof.
  intros m pattern.
  assert (c_err (compile pattern m) = None) as Herr by (by vm_compute).
  split; [exact Herr|].
  exact (prefix_before_first_group (RX := RE.engine) m pattern (str "/re/")
           (str "var=.*)") eq_refl ltac:(done) eq_refl Herr).
Defined.

Lemma compile_pieces_witness :
  let m : gmap gostring Z := {[ str "v" := 0%Z ]} in
  let ps := [Lit (str "/\(/"); Grp (str "v=a"); Grp (str "(x)"); Lit (str "/");
             Grp (str "v=b")] in
  render ps = str "/\(/(v=a)((x))/(v=b)" /\
  translate ps = str "/\(/(a)((x))/(b)" /\
  c_re (compile (render ps) m) =
    regexp_Compile (str "^" ++ translate ps ++ str "$") /\
  bindings m ps 0 = [(0%Z, 0); (0%Z, 1)] /\
  c_paramsIndex (compile (render ps) m) !! 0%Z = Some 1 /\
  c_err (compile (render ps) m) = None.
Proof.
  intros m ps.
  assert (Forall piece_ok ps) as Hok by (repeat constructor).
  assert (names_ok m ps) as Hnames by (repeat constructor).
  destruct (compile_pieces (RX := RE.engine) m ps Hok Hnames)
    as (Hre & Hlast & Herr).
  split_and!; [done|done|exact Hre|done| |].
  - apply Hlast. change (bindings m ps 0) with [(0%Z, 0); (0%Z, 1)].
    split; [done|]. intros [|[|j]] k' Hj; [lia|lia|done].
  - rewrite Herr. by vm_compute.
Defined.

Lemma readParams_resolve_witness :
  let fields := [tagged "A" String "v"; exported "v" Int; tagged "B" Int "v";
                 exported "w" Bool; exported "w" Uint] in
  exists m t,
    readParams (PointerToStruct fields) = (m, t, None) /\
    m !! str "v" = Some 2%Z /\ m !! str "w" = Some 4%Z /\ m !! str "A" = None.
Proof.
  intros fields.
  destruct (readParams (PointerToStruct fields)) as [[m t] [e|]] eqn:Eread;
    [by vm_compute in Eread|].
  exists m, t. split; [done|].
  rewrite !(readParams_resolve fields m t Eread). by vm_compute.
Defined.

Lemma readParams_sound_witness :
  let fields := [tagged "A" String "v"; exported "w" Uint] in
  exists m t,
    readParams (PointerToStruct fields) = (m, t, None) /\
    t = Some fields /\
    forall n k, m !! n = Some k -> names_field fields n k.
Proof.
  intros fields.
  destruct (readParams (PointerToStruct fields)) as [[m t] [e|]] eqn:Eread;
    [by vm_compute in Eread|].
  exists m, t. split; [done|].
  exact (readParams_sound fields m t Eread).
Defined.

Lemma not_found_without_candidate_witness :
  let path := str "/b" in
  (forall rh, rh ∈ table precedence -> HasPrefix path (rh_prefix rh) = false) /\
  serve (table precedence) path = NotFound.
Proof.
  intros path.
  assert (forall rh, rh ∈ table precedence ->
            HasPrefix path (rh_prefix rh) = false) as Hno.
  { apply Forall_forall. by repeat constructor. }
  split; [exact Hno|].
  exact (not_found_without_candidate (MR := canonicalRange)
           (table precedence) path Hno).
Defined.

Lemma served_route_witness :
  let path := str "/123/abc" in
  let ps := Some [Some (IntValue 123); Some (StringValue (str "abc"))] in
  serve (table typed) path = Served 2 ps /\
  exists i rh re,
    i < boundary (table typed) path /\ table typed !! i = Some rh /\
    rh_handler rh = 2 /\
    HasPrefix path (rh_prefix rh) = true /\
    rh_re rh = Some re /\ FindStringSubmatchIndex re path <> [] /\
    (ps = None <-> rh_paramsType rh = None) /\
    forall j, i < j < boundary (table typed) path ->
      exists rh', table typed !! j = Some rh' /\
        HasPrefix path (rh_prefix rh') = true /\
        try rh' path = KeepLooking.
Proof.
  intros path ps.
  assert (serve (table typed) path = Served 2 ps) as Hserved by (by vm_compute).
  split; [exact Hserved|].
  exact (served_route (MR := canonicalRange) (table typed) path 2 ps Hserved).
Defined.

Lemma first_answer_wins_witness :
  let path := str "/123/abc" in
  let o := Served 2 (Some [Some (IntValue 123); Some (StringValue (str "abc"))]) in
  exists rh,
    table typed !! 0 = Some rh /\ try rh path = Done o /\
    serve (table typed) path = o.
Proof.
  intros path o.
  destruct (table typed !! 0) as [rh|] eqn:Erh; [|by vm_compute in Erh].
  assert (try rh path = Done o) as Htry.
  { vm_compute in Erh. injection Erh as <-. by vm_compute. }
  assert (HasPrefix path (rh_prefix rh) = true) as Hp.
  { vm_compute in Erh. injection Erh as <-. by vm_compute. }
  assert (boundary (table typed) path = 2) as Hb by (by vm_compute).
  exists rh. split_and!; [done|exact Htry|].
  apply (first_answer_wins (MR := canonicalRange) (table typed) path 0 rh o);
    [rewrite Hb; lia|exact Erh|exact Hp|exact Htry|].
  intros j Hj. rewrite Hb in Hj. assert (j = 1) as -> by lia.
  eexists. split_and!; [by vm_compute|by vm_compute|by vm_compute].
Defined.

Lemma not_found_after_rejections_witness :
  let path := str "/x/abc" in
  boundary (table typed) path = 2 /\
  (forall j, 0 <= j < 2 ->
     exists rh, table typed !! j = Some rh /\
       HasPrefix path (rh_prefix rh) = true /\ try rh path = KeepLooking) /\
  serve (table typed) path = NotFound.
Proof.
  intros path.
  assert (boundary (table typed) path = 2) as Hb by (by vm_compute).
  assert (forall j, 0 <= j < 2 ->
            exists rh, table typed !! j = Some rh /\
              HasPrefix path (rh_prefix rh) = true /\
              try rh path = KeepLooking) as Hrun.
  { intros j Hj.
    assert (j = 0 \/ j = 1) as [-> | ->] by lia;
      (eexists; split_and!; [by vm_compute|by vm_compute|by vm_compute]). }
  split_and!; [exact Hb|exact Hrun|].
  apply (not_found_after_rejections (MR := canonicalRange) (table typed) path 0);
    [lia|rewrite Hb; exact Hrun|by left].
Defined.

Lemma dispatch_order_independent_witness :
  let path := str "/123/abc" in
  forallb (fun rh => route_safe rh path) (table typed) = true /\
  ServeHTTP (MR := reverseRange) (table typed) path =
    ServeHTTP (MR := canonicalRange) (table typed) path.
Proof.
  intros path.
  assert (forallb (fun rh => route_safe rh path) (table typed) = true) as Hsafe
    by (by vm_compute).
  split; [exact Hsafe|].
  exact (dispatch_order_independent reverseRange canonicalRange (table typed)
           path Hsafe).
Defined.

Lemma served_params_witness :
  let path := str "/a/q" in
  let t := [tagged "V" String "v"; exported "W" Int] in
  let ps := [Some (StringValue (str "a")); None] in
  exists rh,
    newRoute (str "/(a|b)/(v=.*)") 1 (PointerToStruct t) = inr rh /\
    try rh path = Done (Served 1 (Some ps)) /\
    rh_paramsType rh = Some t /\
    exists re vals,
      rh_re rh = Some re /\
      extractVals path (FindStringSubmatchIndex re path) = inr vals /\
      length ps = length t /\
      (forall f v, rh_paramsIndex rh !! f = Some v ->
         exists fld s x,
           t !! Z.to_nat f = Some fld /\ vals !! v = Some s /\
           holds (FieldKind fld) s x /\
           ps !! Z.to_nat f = Some (Some x)) /\
      (forall i, i < length t -> rh_paramsIndex rh !! Z.of_nat i = None ->
         ps !! i = Some None).
Proof.
  intros path t ps.
  destruct (newRoute (str "/(a|b)/(v=.*)") 1 (PointerToStruct t)) as [e|rh]
    eqn:Enew; [by vm_compute in Enew|].
  assert (try rh path = Done (Served 1 (Some ps))) as Htry.
  { vm_compute in Enew. injection Enew as <-. by vm_compute. }
  assert (rh_paramsType rh = Some t) as Ht.
  { vm_compute in Enew. injection Enew as <-. by vm_compute. }
  exists rh. split_and!; [done|exact Htry|exact Ht|].
  exact (served_params (MR := canonicalRange) rh path 1 ps t Htry Ht).
Defined.

(** The offsets of the match behind C6. *)
Lemma extractVals_wellformed_witness :
  let path := str "/x/q" in
  let pairs := [(1, 2); (2, 2); (-1, -1); (3, 4)]%Z in
  Forall (pair_ok path) pairs /\
  exists vals,
    extractVals path (0 :: 4 :: flat pairs)%Z = inr vals /\
    length vals <= length pairs /\
    Forall (fun v => exists p, p ∈ pairs /\ (0 <= p.1)%Z /\ v = capture path p)
      vals.
Proof.
  intros path pairs.
  assert (Forall (pair_ok path) pairs) as Hok.
  { repeat constructor; unfold pair_ok; simpl; lia. }
  split; [exact Hok|].
  exact (extractVals_wellformed path 0%Z 4%Z pairs Hok).
Defined.

Lemma extractVals_sequential_witness :
  let path := str "/x/q" in
  let pairs := [(1, 2); (3, 4)]%Z in
  sequential path 0 pairs /\
  extractVals path [0; 4; 1; 2; 3; 4]%Z = inr [str "x"; str "q"].
Proof.
  intros path pairs.
  assert (sequential path 0 pairs) as Hseq by (simpl; lia).
  split; [exact Hseq|].
  exact (extractVals_sequential path 0%Z 4%Z pairs Hseq).
Defined.

Lemma HandleAll_routes_witness :
  HandleAll precedence NewRouter = inr (table precedence) /\
  exists rhs,
    Forall2 (fun '(pattern, handler, params) rh =>
               newRoute pattern handler params = inr rh) precedence rhs /\
    table precedence ≡ₚ NewRouter ++ rhs.
Proof.
  assert (HandleAll precedence NewRouter = inr (table precedence)) as Hall
    by (by vm_compute).
  split; [exact Hall|].
  exact (HandleAll_routes precedence NewRouter (table precedence) Hall).
Defined.

(** The route behind C10. *)
Lemma registered_route_panics_witness :
  let params := PointerToStruct [tagged "V" String "v"] in
  exists rh,
    newRoute (str "/(v=?:x)") 1 params = inr rh /\
    try rh (str "/x") = Done (Panicked IndexOutOfRange) /\
    (IndexOutOfRange = IndexOutOfRange \/ IndexOutOfRange = SliceOutOfRange \/
     IndexOutOfRange = UnexportedField).
Proof.
  intros params.
  destruct (newRoute (str "/(v=?:x)") 1 params) as [e|rh] eqn:Enew;
    [by vm_compute in Enew|].
  assert (try rh (str "/x") = Done (Panicked IndexOutOfRange)) as Htry.
  { vm_compute in Enew. injection Enew as <-. by vm_compute. }
  exists rh. split_and!; [done|exact Htry|].
  exact (registered_route_panics (MR := canonicalRange) (str "/(v=?:x)") 1
           params rh (str "/x") IndexOutOfRange Enew Htry).
Defined.

Lemma nil_params_route_witness :
  exists rh,
    newRoute (str "/a(/?)") 2 NilInterface = inr rh /\
    rh_paramsType rh = None /\ rh_paramsIndex rh = ∅ /\
    (try rh (str "/a/") = KeepLooking \/
     try rh (str "/a/") = Done (Served 2 None)).
Proof.
  destruct (newRoute (str "/a(/?)") 2 NilInterface) as [e|rh] eqn:Enew;
    [by vm_compute in Enew|].
  exists rh. split; [done|].
  exact (nil_params_route (MR := canonicalRange) (str "/a(/?)") 2 NilInterface
           rh (str "/a/") (or_introl eq_refl) Enew).
Defined.

Lemma boundary_above_candidates_witness :
  let path := str "/a/" in
  ascending (table precedence) /\
  exists rh,
    table precedence !! 1 = Some rh /\
    HasPrefix path (rh_prefix rh) = true /\
    1 < boundary (table precedence) path.
Proof.
  intros path.
  assert (ascending (table precedence)) as Hasc.
  { destruct (HandleAll_invariant precedence NewRouter [] (table precedence))
      as (_ & _ & Hasc & _); [constructor|done|by vm_compute|exact Hasc]. }
  split; [exact Hasc|].
  destruct (table precedence !! 1) as [rh|] eqn:Erh; [|by vm_compute in Erh].
  assert (HasPrefix path (rh_prefix rh) = true) as Hp.
  { vm_compute in Erh. injection Erh as <-. by vm_compute. }
  exists rh. split_and!; [done|exact Hp|].
  exact (boundary_above_candidates (table precedence) path 1 rh Hasc Erh Hp).
Defined.

End FurtherRuns.
